(** * Radix-2^51 field arithmetic for GF(2^255-19)

    A shallow embedding of [ed25519/internal/edwards25519/fe51.go] and the
    proofs of its arithmetic and codec contracts.

    Conventions.  A Go [uint64] is a [Z] in [[0, 2^64)]; every
    operation that can leave that range in Go is written with its
    reduction modulo [2^64].  A Go [byte] is a [Z] in [[0, 2^8)].  A
    [FieldElement] ([[5]uint64]) is a record of five limbs.  Procedures
    that fill an [out] pointer are functions returning the value written;
    what [FeToBytes] leaves untouched is stated on an explicit memory, on
    which [feReduce] and [FeToBytes] are given a second time and shown to
    compute the same results. *)

From Stdlib Require Import ZArith List Lia Bool.
Import ListNotations.

Local Open Scope Z_scope.

(** ** Machine integers *)

Module U64.

Definition wB : Z := 2 ^ 64.

Definition wrap (z : Z) : Z := z mod wB.

Definition add (a b : Z) : Z := wrap (a + b).
Definition sub (a b : Z) : Z := wrap (a - b).
Definition mul (a b : Z) : Z := wrap (a * b).
Definition shl (a n : Z) : Z := wrap (Z.shiftl a n).
Definition shr (a n : Z) : Z := Z.shiftr a n.
Definition and (a b : Z) : Z := Z.land a b.
Definition or (a b : Z) : Z := Z.lor a b.
Definition xor (a b : Z) : Z := Z.lxor a b.

(** [bits.Mul64] of the Go standard library: the full 128-bit product
    of two 64-bit words, returned as (hi, lo). *)
Definition bits_Mul64 (x y : Z) : Z * Z :=
  ((x * y) / wB, (x * y) mod wB).

Definition ok (a : Z) : Prop := 0 <= a < wB.

End U64.

(** Conversion [byte(x)] of an unsigned word. *)
Definition byte (z : Z) : Z := z mod 2 ^ 8.

Definition is_byte (b : Z) : Prop := 0 <= b < 2 ^ 8.

(** ** Field elements *)

Record FieldElement : Type := FE {
  l0 : Z; l1 : Z; l2 : Z; l3 : Z; l4 : Z
}.

(** The integer a field element stands for (source lines 14-16). *)
Definition feval (t : FieldElement) : Z :=
  l0 t + l1 t * 2 ^ 51 + l2 t * 2 ^ 102 + l3 t * 2 ^ 153 + l4 t * 2 ^ 204.

Definition p25519 : Z := 2 ^ 255 - 19.

Definition maskLow51Bits : Z := 2 ^ 51 - 1.

(** Every limb is a 64-bit word. *)
Definition fe_ok (t : FieldElement) : Prop :=
  U64.ok (l0 t) /\ U64.ok (l1 t) /\ U64.ok (l2 t) /\ U64.ok (l3 t) /\
  U64.ok (l4 t).

(** Every limb is below [2^k]. *)
Definition fe_below (k : Z) (t : FieldElement) : Prop :=
  (0 <= l0 t < 2 ^ k) /\ (0 <= l1 t < 2 ^ k) /\ (0 <= l2 t < 2 ^ k) /\
  (0 <= l3 t < 2 ^ k) /\ (0 <= l4 t < 2 ^ k).

(** Loose form: the working bound of 54 bits per limb. *)
Definition loose (t : FieldElement) : Prop := fe_below 54 t.

(** ** Arithmetic kernel *)

Definition FeAdd (a b : FieldElement) : FieldElement :=
  FE (U64.add (l0 a) (l0 b))
     (U64.add (l1 a) (l1 b))
     (U64.add (l2 a) (l2 b))
     (U64.add (l3 a) (l3 b))
     (U64.add (l4 a) (l4 b)).

(** The limb reduction at the head of [FeSub] (source lines 35-48):
    the value of [t] when the subtractions start. *)
Definition FeSub_t (b : FieldElement) : FieldElement :=
  let t0 := l0 b in
  let t1 := l1 b in
  let t2 := l2 b in
  let t3 := l3 b in
  let t4 := l4 b in
  let t1 := U64.add t1 (U64.shr t0 51) in
  let t0 := U64.and t0 maskLow51Bits in
  let t2 := U64.add t2 (U64.shr t1 51) in
  let t1 := U64.and t1 maskLow51Bits in
  let t3 := U64.add t3 (U64.shr t2 51) in
  let t2 := U64.and t2 maskLow51Bits in
  let t4 := U64.add t4 (U64.shr t3 51) in
  let t3 := U64.and t3 maskLow51Bits in
  let t0 := U64.add t0 (U64.mul (U64.shr t4 51) 19) in
  let t4 := U64.and t4 maskLow51Bits in
  FE t0 t1 t2 t3 t4.

(** The constants added before subtracting: the limbs of [2 * p]. *)
Definition K0 : Z := 0xFFFFFFFFFFFDA.
Definition K1 : Z := 0xFFFFFFFFFFFFE.

(** The minuends [a[i] + K_i] of source lines 52-56. *)
Definition FeSub_m (a : FieldElement) : FieldElement :=
  FE (U64.add (l0 a) K0)
     (U64.add (l1 a) K1)
     (U64.add (l2 a) K1)
     (U64.add (l3 a) K1)
     (U64.add (l4 a) K1).

Definition FeSub (a b : FieldElement) : FieldElement :=
  let t := FeSub_t b in
  let m := FeSub_m a in
  FE (U64.sub (l0 m) (l0 t))
     (U64.sub (l1 m) (l1 t))
     (U64.sub (l2 m) (l2 t))
     (U64.sub (l3 m) (l3 t))
     (U64.sub (l4 m) (l4 t)).

(** Modelled from the spec: [FeZero], which [FeNeg] calls, is declared
    outside this file; the spec gives [Neg(a)] as [Sub(zero, a)], with
    [zero] the field element whose limbs are all 0. *)
Definition FeZero : FieldElement := FE 0 0 0 0 0.

Definition FeNeg (a : FieldElement) : FieldElement := FeSub FeZero a.

(** [mul64] (source lines 276-284): add the 128-bit product [x * y] to
    the accumulator [(accLo, accHi)]; returns [(ol, oh)]. *)
Definition mul64 (accLo accHi x y : Z) : Z * Z :=
  let '(oh, ol) := U64.bits_Mul64 x y in
  let ol := U64.add ol accLo in
  let oh := if ol <? accLo then U64.add oh 1 else oh in
  let oh := U64.add oh accHi in
  (ol, oh).

Definition FeMul (x y : FieldElement) : FieldElement :=
  let x0 := l0 x in
  let x1 := l1 x in
  let x2 := l2 x in
  let x3 := l3 x in
  let x4 := l4 x in
  let y0 := l0 y in
  let y1 := l1 y in
  let y2 := l2 y in
  let y3 := l3 y in
  let y4 := l4 y in
  let x1_19 := U64.mul x1 19 in
  let x2_19 := U64.mul x2 19 in
  let x3_19 := U64.mul x3 19 in
  let x4_19 := U64.mul x4 19 in
  (* r0 = x0*y0 + 19*(x1*y4 + x2*y3 + x3*y2 + x4*y1) *)
  let '(r00, r01) := mul64 0 0 x0 y0 in
  let '(r00, r01) := mul64 r00 r01 x1_19 y4 in
  let '(r00, r01) := mul64 r00 r01 x2_19 y3 in
  let '(r00, r01) := mul64 r00 r01 x3_19 y2 in
  let '(r00, r01) := mul64 r00 r01 x4_19 y1 in
  (* r1 = x0*y1 + x1*y0 + 19*(x2*y4 + x3*y3 + x4*y2) *)
  let '(r10, r11) := mul64 0 0 x0 y1 in
  let '(r10, r11) := mul64 r10 r11 x1 y0 in
  let '(r10, r11) := mul64 r10 r11 x2_19 y4 in
  let '(r10, r11) := mul64 r10 r11 x3_19 y3 in
  let '(r10, r11) := mul64 r10 r11 x4_19 y2 in
  (* r2 = x0*y2 + x1*y1 + x2*y0 + 19*(x3*y4 + x4*y3) *)
  let '(r20, r21) := mul64 0 0 x0 y2 in
  let '(r20, r21) := mul64 r20 r21 x1 y1 in
  let '(r20, r21) := mul64 r20 r21 x2 y0 in
  let '(r20, r21) := mul64 r20 r21 x3_19 y4 in
  let '(r20, r21) := mul64 r20 r21 x4_19 y3 in
  (* r3 = x0*y3 + x1*y2 + x2*y1 + x3*y0 + 19*x4*y4 *)
  let '(r30, r31) := mul64 0 0 x0 y3 in
  let '(r30, r31) := mul64 r30 r31 x1 y2 in
  let '(r30, r31) := mul64 r30 r31 x2 y1 in
  let '(r30, r31) := mul64 r30 r31 x3 y0 in
  let '(r30, r31) := mul64 r30 r31 x4_19 y4 in
  (* r4 = x0*y4 + x1*y3 + x2*y2 + x3*y1 + x4*y0 *)
  let '(r40, r41) := mul64 0 0 x0 y4 in
  let '(r40, r41) := mul64 r40 r41 x1 y3 in
  let '(r40, r41) := mul64 r40 r41 x2 y2 in
  let '(r40, r41) := mul64 r40 r41 x3 y1 in
  let '(r40, r41) := mul64 r40 r41 x4 y0 in
  (* carry between the double-width coefficients *)
  let r01 := U64.or (U64.shl r01 13) (U64.shr r00 51) in
  let r00 := U64.and r00 maskLow51Bits in
  let r11 := U64.or (U64.shl r11 13) (U64.shr r10 51) in
  let r10 := U64.and r10 maskLow51Bits in
  let r10 := U64.add r10 r01 in
  let r21 := U64.or (U64.shl r21 13) (U64.shr r20 51) in
  let r20 := U64.and r20 maskLow51Bits in
  let r20 := U64.add r20 r11 in
  let r31 := U64.or (U64.shl r31 13) (U64.shr r30 51) in
  let r30 := U64.and r30 maskLow51Bits in
  let r30 := U64.add r30 r21 in
  let r41 := U64.or (U64.shl r41 13) (U64.shr r40 51) in
  let r40 := U64.and r40 maskLow51Bits in
  let r40 := U64.add r40 r31 in
  let r41 := U64.mul r41 19 in
  let r00 := U64.add r00 r41 in
  (* limb-to-limb carry *)
  let r10 := U64.add r10 (U64.shr r00 51) in
  let r00 := U64.and r00 maskLow51Bits in
  let r20 := U64.add r20 (U64.shr r10 51) in
  let r10 := U64.and r10 maskLow51Bits in
  let r30 := U64.add r30 (U64.shr r20 51) in
  let r20 := U64.and r20 maskLow51Bits in
  let r40 := U64.add r40 (U64.shr r30 51) in
  let r30 := U64.and r30 maskLow51Bits in
  let r00 := U64.add r00 (U64.mul (U64.shr r40 51) 19) in
  let r40 := U64.and r40 maskLow51Bits in
  FE r00 r10 r20 r30 r40.

Definition FeSquare (x : FieldElement) : FieldElement :=
  let x0 := l0 x in
  let x1 := l1 x in
  let x2 := l2 x in
  let x3 := l3 x in
  let x4 := l4 x in
  let x0_2 := U64.shl x0 1 in
  let x1_2 := U64.shl x1 1 in
  let x1_38 := U64.mul x1 38 in
  let x2_38 := U64.mul x2 38 in
  let x3_38 := U64.mul x3 38 in
  let x3_19 := U64.mul x3 19 in
  let x4_19 := U64.mul x4 19 in
  (* r0 = x0*x0 + x1*38*x4 + x2*38*x3 *)
  let '(r00, r01) := mul64 0 0 x0 x0 in
  let '(r00, r01) := mul64 r00 r01 x1_38 x4 in
  let '(r00, r01) := mul64 r00 r01 x2_38 x3 in
  (* r1 = x0*2*x1 + x2*38*x4 + x3*19*x3 *)
  let '(r10, r11) := mul64 0 0 x0_2 x1 in
  let '(r10, r11) := mul64 r10 r11 x2_38 x4 in
  let '(r10, r11) := mul64 r10 r11 x3_19 x3 in
  (* r2 = x0*2*x2 + x1*x1 + x3*38*x4 *)
  let '(r20, r21) := mul64 0 0 x0_2 x2 in
  let '(r20, r21) := mul64 r20 r21 x1 x1 in
  let '(r20, r21) := mul64 r20 r21 x3_38 x4 in
  (* r3 = x0*2*x3 + x1*2*x2 + x4*19*x4 *)
  let '(r30, r31) := mul64 0 0 x0_2 x3 in
  let '(r30, r31) := mul64 r30 r31 x1_2 x2 in
  let '(r30, r31) := mul64 r30 r31 x4_19 x4 in
  (* r4 = x0*2*x4 + x1*2*x3 + x2*x2 *)
  let '(r40, r41) := mul64 0 0 x0_2 x4 in
  let '(r40, r41) := mul64 r40 r41 x1_2 x3 in
  let '(r40, r41) := mul64 r40 r41 x2 x2 in
  (* same reduction *)
  let r01 := U64.or (U64.shl r01 13) (U64.shr r00 51) in
  let r00 := U64.and r00 maskLow51Bits in
  let r11 := U64.or (U64.shl r11 13) (U64.shr r10 51) in
  let r10 := U64.and r10 maskLow51Bits in
  let r10 := U64.add r10 r01 in
  let r21 := U64.or (U64.shl r21 13) (U64.shr r20 51) in
  let r20 := U64.and r20 maskLow51Bits in
  let r20 := U64.add r20 r11 in
  let r31 := U64.or (U64.shl r31 13) (U64.shr r30 51) in
  let r30 := U64.and r30 maskLow51Bits in
  let r30 := U64.add r30 r21 in
  let r41 := U64.or (U64.shl r41 13) (U64.shr r40 51) in
  let r40 := U64.and r40 maskLow51Bits in
  let r40 := U64.add r40 r31 in
  let r41 := U64.mul r41 19 in
  let r00 := U64.add r00 r41 in
  let r10 := U64.add r10 (U64.shr r00 51) in
  let r00 := U64.and r00 maskLow51Bits in
  let r20 := U64.add r20 (U64.shr r10 51) in
  let r10 := U64.and r10 maskLow51Bits in
  let r30 := U64.add r30 (U64.shr r20 51) in
  let r20 := U64.and r20 maskLow51Bits in
  let r40 := U64.add r40 (U64.shr r30 51) in
  let r30 := U64.and r30 maskLow51Bits in
  let r00 := U64.add r00 (U64.mul (U64.shr r40 51) 19) in
  let r40 := U64.and r40 maskLow51Bits in
  FE r00 r10 r20 r30 r40.

Definition FeSquare2 (a : FieldElement) : FieldElement :=
  let out := FeSquare a in
  FeAdd out out.

(** [uint64(b)] for an [int32] [b]: sign extension, which on [Z] is the
    residue modulo [2^64]. *)
Definition uint64_of_int32 (b : Z) : Z := U64.wrap b.

(** [FeCMove] (source lines 296-303); the result is the new content of
    [f]. *)
Definition FeCMove (f g : FieldElement) (b : Z) : FieldElement :=
  let negate := U64.mul (2 ^ 64 - 1) (uint64_of_int32 b) in
  FE (U64.xor (l0 f) (U64.and negate (U64.xor (l0 f) (l0 g))))
     (U64.xor (l1 f) (U64.and negate (U64.xor (l1 f) (l1 g))))
     (U64.xor (l2 f) (U64.and negate (U64.xor (l2 f) (l2 g))))
     (U64.xor (l3 f) (U64.and negate (U64.xor (l3 f) (l3 g))))
     (U64.xor (l4 f) (U64.and negate (U64.xor (l4 f) (l4 g)))).

(** ** Codec *)

(** [x[i]] on a byte buffer. *)
Definition at_ (x : list Z) (i : nat) : Z := nth i x 0.

Definition FeFromBytes (x : list Z) : FieldElement :=
  let v0 := at_ x 0 in
  let v0 := U64.or v0 (U64.shl (at_ x 1) 8) in
  let v0 := U64.or v0 (U64.shl (at_ x 2) 16) in
  let v0 := U64.or v0 (U64.shl (at_ x 3) 24) in
  let v0 := U64.or v0 (U64.shl (at_ x 4) 32) in
  let v0 := U64.or v0 (U64.shl (at_ x 5) 40) in
  let v0 := U64.or v0 (U64.shl (Z.land (at_ x 6) 7) 48) in
  let v1 := U64.shr (at_ x 6) 3 in
  let v1 := U64.or v1 (U64.shl (at_ x 7) 5) in
  let v1 := U64.or v1 (U64.shl (at_ x 8) 13) in
  let v1 := U64.or v1 (U64.shl (at_ x 9) 21) in
  let v1 := U64.or v1 (U64.shl (at_ x 10) 29) in
  let v1 := U64.or v1 (U64.shl (at_ x 11) 37) in
  let v1 := U64.or v1 (U64.shl (Z.land (at_ x 12) 63) 45) in
  let v2 := U64.shr (at_ x 12) 6 in
  let v2 := U64.or v2 (U64.shl (at_ x 13) 2) in
  let v2 := U64.or v2 (U64.shl (at_ x 14) 10) in
  let v2 := U64.or v2 (U64.shl (at_ x 15) 18) in
  let v2 := U64.or v2 (U64.shl (at_ x 16) 26) in
  let v2 := U64.or v2 (U64.shl (at_ x 17) 34) in
  let v2 := U64.or v2 (U64.shl (at_ x 18) 42) in
  let v2 := U64.or v2 (U64.shl (Z.land (at_ x 19) 1) 50) in
  let v3 := U64.shr (at_ x 19) 1 in
  let v3 := U64.or v3 (U64.shl (at_ x 20) 7) in
  let v3 := U64.or v3 (U64.shl (at_ x 21) 15) in
  let v3 := U64.or v3 (U64.shl (at_ x 22) 23) in
  let v3 := U64.or v3 (U64.shl (at_ x 23) 31) in
  let v3 := U64.or v3 (U64.shl (at_ x 24) 39) in
  let v3 := U64.or v3 (U64.shl (Z.land (at_ x 25) 15) 47) in
  let v4 := U64.shr (at_ x 25) 4 in
  let v4 := U64.or v4 (U64.shl (at_ x 26) 4) in
  let v4 := U64.or v4 (U64.shl (at_ x 27) 12) in
  let v4 := U64.or v4 (U64.shl (at_ x 28) 20) in
  let v4 := U64.or v4 (U64.shl (at_ x 29) 28) in
  let v4 := U64.or v4 (U64.shl (at_ x 30) 36) in
  let v4 := U64.or v4 (U64.shl (Z.land (at_ x 31) 127) 44) in
  FE v0 v1 v2 v3 v4.

(** [feReduce] (source lines 394-432); the result is the content of [t]
    on return. *)
Definition feReduce (v : FieldElement) : FieldElement :=
  let t0 := l0 v in
  let t1 := l1 v in
  let t2 := l2 v in
  let t3 := l3 v in
  let t4 := l4 v in
  let t1 := U64.add t1 (U64.shr t0 51) in
  let t0 := U64.and t0 maskLow51Bits in
  let t2 := U64.add t2 (U64.shr t1 51) in
  let t1 := U64.and t1 maskLow51Bits in
  let t3 := U64.add t3 (U64.shr t2 51) in
  let t2 := U64.and t2 maskLow51Bits in
  let t4 := U64.add t4 (U64.shr t3 51) in
  let t3 := U64.and t3 maskLow51Bits in
  let t0 := U64.add t0 (U64.mul (U64.shr t4 51) 19) in
  let t4 := U64.and t4 maskLow51Bits in
  (* the carry bit *)
  let c := U64.shr (U64.add t0 19) 51 in
  let c := U64.shr (U64.add t1 c) 51 in
  let c := U64.shr (U64.add t2 c) 51 in
  let c := U64.shr (U64.add t3 c) 51 in
  let c := U64.shr (U64.add t4 c) 51 in
  let t0 := U64.add t0 (U64.mul 19 c) in
  let t1 := U64.add t1 (U64.shr t0 51) in
  let t0 := U64.and t0 maskLow51Bits in
  let t2 := U64.add t2 (U64.shr t1 51) in
  let t1 := U64.and t1 maskLow51Bits in
  let t3 := U64.add t3 (U64.shr t2 51) in
  let t2 := U64.and t2 maskLow51Bits in
  let t4 := U64.add t4 (U64.shr t3 51) in
  let t3 := U64.and t3 maskLow51Bits in
  let t4 := U64.and t4 maskLow51Bits in
  FE t0 t1 t2 t3 t4.

(** The packing of source lines 352-391, from the reduced limbs. *)
Definition pack (t : FieldElement) : list Z :=
  let t0 := l0 t in
  let t1 := l1 t in
  let t2 := l2 t in
  let t3 := l3 t in
  let t4 := l4 t in
  let r0 := byte (U64.and t0 0xff) in
  let r1 := byte (U64.and (U64.shr t0 8) 0xff) in
  let r2 := byte (U64.and (U64.shr t0 16) 0xff) in
  let r3 := byte (U64.and (U64.shr t0 24) 0xff) in
  let r4 := byte (U64.and (U64.shr t0 32) 0xff) in
  let r5 := byte (U64.and (U64.shr t0 40) 0xff) in
  let r6 := byte (U64.shr t0 48) in
  let r6 := Z.lxor r6 (byte (U64.and (U64.shl t1 3) 0xf8)) in
  let r7 := byte (U64.and (U64.shr t1 5) 0xff) in
  let r8 := byte (U64.and (U64.shr t1 13) 0xff) in
  let r9 := byte (U64.and (U64.shr t1 21) 0xff) in
  let r10 := byte (U64.and (U64.shr t1 29) 0xff) in
  let r11 := byte (U64.and (U64.shr t1 37) 0xff) in
  let r12 := byte (U64.shr t1 45) in
  let r12 := Z.lxor r12 (byte (U64.and (U64.shl t2 6) 0xc0)) in
  let r13 := byte (U64.and (U64.shr t2 2) 0xff) in
  let r14 := byte (U64.and (U64.shr t2 10) 0xff) in
  let r15 := byte (U64.and (U64.shr t2 18) 0xff) in
  let r16 := byte (U64.and (U64.shr t2 26) 0xff) in
  let r17 := byte (U64.and (U64.shr t2 34) 0xff) in
  let r18 := byte (U64.and (U64.shr t2 42) 0xff) in
  let r19 := byte (U64.shr t2 50) in
  let r19 := Z.lxor r19 (byte (U64.and (U64.shl t3 1) 0xfe)) in
  let r20 := byte (U64.and (U64.shr t3 7) 0xff) in
  let r21 := byte (U64.and (U64.shr t3 15) 0xff) in
  let r22 := byte (U64.and (U64.shr t3 23) 0xff) in
  let r23 := byte (U64.and (U64.shr t3 31) 0xff) in
  let r24 := byte (U64.and (U64.shr t3 39) 0xff) in
  let r25 := byte (U64.shr t3 47) in
  let r25 := Z.lxor r25 (byte (U64.and (U64.shl t4 4) 0xf0)) in
  let r26 := byte (U64.and (U64.shr t4 4) 0xff) in
  let r27 := byte (U64.and (U64.shr t4 12) 0xff) in
  let r28 := byte (U64.and (U64.shr t4 20) 0xff) in
  let r29 := byte (U64.and (U64.shr t4 28) 0xff) in
  let r30 := byte (U64.and (U64.shr t4 36) 0xff) in
  let r31 := byte (U64.shr t4 44) in
  [r0; r1; r2; r3; r4; r5; r6; r7; r8; r9; r10; r11; r12; r13; r14; r15;
   r16; r17; r18; r19; r20; r21; r22; r23; r24; r25; r26; r27; r28; r29;
   r30; r31].

Definition FeToBytes (v : FieldElement) : list Z :=
  let t := feReduce v in
  pack t.

(** ** Little-endian byte strings *)

(** The integer a byte string encodes, least significant byte first. *)
Fixpoint le_decode (bs : list Z) : Z :=
  match bs with
  | [] => 0
  | b :: bs' => b + 2 ^ 8 * le_decode bs'
  end.

(** The [n]-byte little-endian encoding of [z]. *)
Fixpoint le_encode (n : nat) (z : Z) : list Z :=
  match n with
  | O => []
  | S n' => z mod 2 ^ 8 :: le_encode n' (z / 2 ^ 8)
  end.

(** A 32-byte buffer of the type [[32]byte]. *)
Definition buffer32 (x : list Z) : Prop :=
  length x = 32%nat /\ Forall is_byte x.

(** ** Procedures on an explicit memory

    [FeToBytes] and [feReduce] receive pointers.  To speak about what a
    call leaves untouched, the two are also given statement by statement
    over a memory of [FieldElement] objects and of byte buffers (the two
    pointer types cannot alias each other). *)

Definition loc : Type := nat.

Definition fupd {A : Type} (f : loc -> A) (p : loc) (a : A) : loc -> A :=
  fun q => if Nat.eqb q p then a else f q.

(** [t[i]] and [t[i] = w] on a [[5]uint64]. *)
Definition limb (t : FieldElement) (i : nat) : Z :=
  match i with
  | 0%nat => l0 t
  | 1%nat => l1 t
  | 2%nat => l2 t
  | 3%nat => l3 t
  | _ => l4 t
  end.

Definition set_limb (t : FieldElement) (i : nat) (w : Z) : FieldElement :=
  match i with
  | 0%nat => FE w (l1 t) (l2 t) (l3 t) (l4 t)
  | 1%nat => FE (l0 t) w (l2 t) (l3 t) (l4 t)
  | 2%nat => FE (l0 t) (l1 t) w (l3 t) (l4 t)
  | 3%nat => FE (l0 t) (l1 t) (l2 t) w (l4 t)
  | _ => FE (l0 t) (l1 t) (l2 t) (l3 t) w
  end.

(** [r[i] = b] on a byte buffer (indices are constants below 32). *)
Fixpoint upd (i : nat) (b : Z) (r : list Z) : list Z :=
  match r, i with
  | [], _ => []
  | _ :: r', O => b :: r'
  | c :: r', S i' => c :: upd i' b r'
  end.

Record mem : Type := Mem {
  fes : loc -> FieldElement;   (* the FieldElement objects *)
  bufs : loc -> list Z;        (* the [32]byte objects *)
  brk : loc                    (* first FieldElement location not in use *)
}.

Definition ld (m : mem) (p : loc) (i : nat) : Z := limb (fes m p) i.

Definition st (m : mem) (p : loc) (i : nat) (w : Z) : mem :=
  Mem (fupd (fes m) p (set_limb (fes m p) i w)) (bufs m) (brk m).

Definition ldb (m : mem) (r : loc) (i : nat) : Z := at_ (bufs m r) i.

Definition stb (m : mem) (r : loc) (i : nat) (b : Z) : mem :=
  Mem (fes m) (fupd (bufs m) r (upd i b (bufs m r))) (brk m).

(** A statement transforms the memory; [s1 ;; s2] runs [s1], then [s2]. *)
Definition stmt : Type := mem -> mem.

Definition seq (s1 s2 : stmt) : stmt := fun m => s2 (s1 m).

Notation "s1 ;; s2" := (seq s1 s2) (at level 61, right associativity).

(** [p[i] = e] and [r[i] = e], with [e] evaluated in the memory before
    the store. *)
Definition set_fe (p : loc) (i : nat) (e : mem -> Z) : stmt :=
  fun m => st m p i (e m).

Definition set_byte (r : loc) (i : nat) (e : mem -> Z) : stmt :=
  fun m => stb m r i (e m).

(** [*t = *v]. *)
Definition copy_fe (t v : loc) : stmt :=
  fun m => Mem (fupd (fes m) t (fes m v)) (bufs m) (brk m).

(** [var t FieldElement]: a zeroed object at the first location not in
    use; and its release on return. *)
Definition enter_fe : stmt :=
  fun m => Mem (fupd (fes m) (brk m) FeZero) (bufs m) (S (brk m)).

Definition leave_fe : stmt :=
  fun m => Mem (fes m) (bufs m) (Nat.pred (brk m)).

Definition feReduce_m (t v : loc) : stmt :=
  copy_fe t v ;;
  set_fe t 1 (fun m => U64.add (ld m t 1) (U64.shr (ld m t 0) 51)) ;;
  set_fe t 0 (fun m => U64.and (ld m t 0) maskLow51Bits) ;;
  set_fe t 2 (fun m => U64.add (ld m t 2) (U64.shr (ld m t 1) 51)) ;;
  set_fe t 1 (fun m => U64.and (ld m t 1) maskLow51Bits) ;;
  set_fe t 3 (fun m => U64.add (ld m t 3) (U64.shr (ld m t 2) 51)) ;;
  set_fe t 2 (fun m => U64.and (ld m t 2) maskLow51Bits) ;;
  set_fe t 4 (fun m => U64.add (ld m t 4) (U64.shr (ld m t 3) 51)) ;;
  set_fe t 3 (fun m => U64.and (ld m t 3) maskLow51Bits) ;;
  set_fe t 0
    (fun m => U64.add (ld m t 0) (U64.mul (U64.shr (ld m t 4) 51) 19)) ;;
  set_fe t 4 (fun m => U64.and (ld m t 4) maskLow51Bits) ;;
  (* the carry bit [c] is a local; it is read off [t] and used at once *)
  set_fe t 0
    (fun m =>
       let c := U64.shr (U64.add (ld m t 0) 19) 51 in
       let c := U64.shr (U64.add (ld m t 1) c) 51 in
       let c := U64.shr (U64.add (ld m t 2) c) 51 in
       let c := U64.shr (U64.add (ld m t 3) c) 51 in
       let c := U64.shr (U64.add (ld m t 4) c) 51 in
       U64.add (ld m t 0) (U64.mul 19 c)) ;;
  set_fe t 1 (fun m => U64.add (ld m t 1) (U64.shr (ld m t 0) 51)) ;;
  set_fe t 0 (fun m => U64.and (ld m t 0) maskLow51Bits) ;;
  set_fe t 2 (fun m => U64.add (ld m t 2) (U64.shr (ld m t 1) 51)) ;;
  set_fe t 1 (fun m => U64.and (ld m t 1) maskLow51Bits) ;;
  set_fe t 3 (fun m => U64.add (ld m t 3) (U64.shr (ld m t 2) 51)) ;;
  set_fe t 2 (fun m => U64.and (ld m t 2) maskLow51Bits) ;;
  set_fe t 4 (fun m => U64.add (ld m t 4) (U64.shr (ld m t 3) 51)) ;;
  set_fe t 3 (fun m => U64.and (ld m t 3) maskLow51Bits) ;;
  set_fe t 4 (fun m => U64.and (ld m t 4) maskLow51Bits).

(** The byte stores of [FeToBytes] (source lines 352-391), reading the
    reduced limbs at [t]. *)
Definition pack_m (r t : loc) : stmt :=
  set_byte r 0 (fun m => byte (U64.and (ld m t 0) 0xff)) ;;
  set_byte r 1 (fun m => byte (U64.and (U64.shr (ld m t 0) 8) 0xff)) ;;
  set_byte r 2 (fun m => byte (U64.and (U64.shr (ld m t 0) 16) 0xff)) ;;
  set_byte r 3 (fun m => byte (U64.and (U64.shr (ld m t 0) 24) 0xff)) ;;
  set_byte r 4 (fun m => byte (U64.and (U64.shr (ld m t 0) 32) 0xff)) ;;
  set_byte r 5 (fun m => byte (U64.and (U64.shr (ld m t 0) 40) 0xff)) ;;
  set_byte r 6 (fun m => byte (U64.shr (ld m t 0) 48)) ;;
  set_byte r 6
    (fun m => Z.lxor (ldb m r 6)
                (byte (U64.and (U64.shl (ld m t 1) 3) 0xf8))) ;;
  set_byte r 7 (fun m => byte (U64.and (U64.shr (ld m t 1) 5) 0xff)) ;;
  set_byte r 8 (fun m => byte (U64.and (U64.shr (ld m t 1) 13) 0xff)) ;;
  set_byte r 9 (fun m => byte (U64.and (U64.shr (ld m t 1) 21) 0xff)) ;;
  set_byte r 10 (fun m => byte (U64.and (U64.shr (ld m t 1) 29) 0xff)) ;;
  set_byte r 11 (fun m => byte (U64.and (U64.shr (ld m t 1) 37) 0xff)) ;;
  set_byte r 12 (fun m => byte (U64.shr (ld m t 1) 45)) ;;
  set_byte r 12
    (fun m => Z.lxor (ldb m r 12)
                (byte (U64.and (U64.shl (ld m t 2) 6) 0xc0))) ;;
  set_byte r 13 (fun m => byte (U64.and (U64.shr (ld m t 2) 2) 0xff)) ;;
  set_byte r 14 (fun m => byte (U64.and (U64.shr (ld m t 2) 10) 0xff)) ;;
  set_byte r 15 (fun m => byte (U64.and (U64.shr (ld m t 2) 18) 0xff)) ;;
  set_byte r 16 (fun m => byte (U64.and (U64.shr (ld m t 2) 26) 0xff)) ;;
  set_byte r 17 (fun m => byte (U64.and (U64.shr (ld m t 2) 34) 0xff)) ;;
  set_byte r 18 (fun m => byte (U64.and (U64.shr (ld m t 2) 42) 0xff)) ;;
  set_byte r 19 (fun m => byte (U64.shr (ld m t 2) 50)) ;;
  set_byte r 19
    (fun m => Z.lxor (ldb m r 19)
                (byte (U64.and (U64.shl (ld m t 3) 1) 0xfe))) ;;
  set_byte r 20 (fun m => byte (U64.and (U64.shr (ld m t 3) 7) 0xff)) ;;
  set_byte r 21 (fun m => byte (U64.and (U64.shr (ld m t 3) 15) 0xff)) ;;
  set_byte r 22 (fun m => byte (U64.and (U64.shr (ld m t 3) 23) 0xff)) ;;
  set_byte r 23 (fun m => byte (U64.and (U64.shr (ld m t 3) 31) 0xff)) ;;
  set_byte r 24 (fun m => byte (U64.and (U64.shr (ld m t 3) 39) 0xff)) ;;
  set_byte r 25 (fun m => byte (U64.shr (ld m t 3) 47)) ;;
  set_byte r 25
    (fun m => Z.lxor (ldb m r 25)
                (byte (U64.and (U64.shl (ld m t 4) 4) 0xf0))) ;;
  set_byte r 26 (fun m => byte (U64.and (U64.shr (ld m t 4) 4) 0xff)) ;;
  set_byte r 27 (fun m => byte (U64.and (U64.shr (ld m t 4) 12) 0xff)) ;;
  set_byte r 28 (fun m => byte (U64.and (U64.shr (ld m t 4) 20) 0xff)) ;;
  set_byte r 29 (fun m => byte (U64.and (U64.shr (ld m t 4) 28) 0xff)) ;;
  set_byte r 30 (fun m => byte (U64.and (U64.shr (ld m t 4) 36) 0xff)) ;;
  set_byte r 31 (fun m => byte (U64.shr (ld m t 4) 44)).

Definition FeToBytes_m (r v : loc) : stmt :=
  fun m =>
    let t := brk m in
    (enter_fe ;; feReduce_m t v ;; pack_m r t ;; leave_fe) m.

(** ** Auxiliary definitions for the proofs *)

(** The value of a double-width accumulator [(lo, hi)]. *)
Definition wide (r : Z * Z) : Z := fst r + 2 ^ 64 * snd r.

Definition wide_ok (r : Z * Z) : Prop := U64.ok (fst r) /\ U64.ok (snd r).

(** One accumulation step of [mul64], on pairs. *)
Definition mac (acc : Z * Z) (x y : Z) : Z * Z :=
  mul64 (fst acc) (snd acc) x y.

(** An accumulator holding exactly [W], with [W] below [B]. *)
Definition holds (r : Z * Z) (W B : Z) : Prop :=
  wide_ok r /\ wide r = W /\ W < B.

(** The carry sequence that ends both [FeMul] (source lines 139-182) and
    [FeSquare] (source lines 236-273), as a function of the five
    accumulated coefficients. *)
Definition carry_wide (r0 r1 r2 r3 r4 : Z * Z) : FieldElement :=
  let '(r00, r01) := r0 in
  let '(r10, r11) := r1 in
  let '(r20, r21) := r2 in
  let '(r30, r31) := r3 in
  let '(r40, r41) := r4 in
  let r01 := U64.or (U64.shl r01 13) (U64.shr r00 51) in
  let r00 := U64.and r00 maskLow51Bits in
  let r11 := U64.or (U64.shl r11 13) (U64.shr r10 51) in
  let r10 := U64.and r10 maskLow51Bits in
  let r10 := U64.add r10 r01 in
  let r21 := U64.or (U64.shl r21 13) (U64.shr r20 51) in
  let r20 := U64.and r20 maskLow51Bits in
  let r20 := U64.add r20 r11 in
  let r31 := U64.or (U64.shl r31 13) (U64.shr r30 51) in
  let r30 := U64.and r30 maskLow51Bits in
  let r30 := U64.add r30 r21 in
  let r41 := U64.or (U64.shl r41 13) (U64.shr r40 51) in
  let r40 := U64.and r40 maskLow51Bits in
  let r40 := U64.add r40 r31 in
  let r41 := U64.mul r41 19 in
  let r00 := U64.add r00 r41 in
  let r10 := U64.add r10 (U64.shr r00 51) in
  let r00 := U64.and r00 maskLow51Bits in
  let r20 := U64.add r20 (U64.shr r10 51) in
  let r10 := U64.and r10 maskLow51Bits in
  let r30 := U64.add r30 (U64.shr r20 51) in
  let r20 := U64.and r20 maskLow51Bits in
  let r40 := U64.add r40 (U64.shr r30 51) in
  let r30 := U64.and r30 maskLow51Bits in
  let r00 := U64.add r00 (U64.mul (U64.shr r40 51) 19) in
  let r40 := U64.and r40 maskLow51Bits in
  FE r00 r10 r20 r30 r40.

(** The second half of [feReduce] (source lines 411-431): the
    conditional subtraction of the modulus, from the limbs the first
    carry pass leaves. *)
Definition final_pass (t : FieldElement) : FieldElement :=
  let t0 := l0 t in
  let t1 := l1 t in
  let t2 := l2 t in
  let t3 := l3 t in
  let t4 := l4 t in
  let c := U64.shr (U64.add t0 19) 51 in
  let c := U64.shr (U64.add t1 c) 51 in
  let c := U64.shr (U64.add t2 c) 51 in
  let c := U64.shr (U64.add t3 c) 51 in
  let c := U64.shr (U64.add t4 c) 51 in
  let t0 := U64.add t0 (U64.mul 19 c) in
  let t1 := U64.add t1 (U64.shr t0 51) in
  let t0 := U64.and t0 maskLow51Bits in
  let t2 := U64.add t2 (U64.shr t1 51) in
  let t1 := U64.and t1 maskLow51Bits in
  let t3 := U64.add t3 (U64.shr t2 51) in
  let t2 := U64.and t2 maskLow51Bits in
  let t4 := U64.add t4 (U64.shr t3 51) in
  let t3 := U64.and t3 maskLow51Bits in
  let t4 := U64.and t4 maskLow51Bits in
  FE t0 t1 t2 t3 t4.

(** The limbs above limb 0 leave room for an incoming carry. *)
Definition carry_room (b : FieldElement) : Prop :=
  l1 b <= 2 ^ 64 - 2 ^ 13 /\ l2 b <= 2 ^ 64 - 2 ^ 13 /\
  l3 b <= 2 ^ 64 - 2 ^ 13 /\ l4 b <= 2 ^ 64 - 2 ^ 13.

(** No subtraction of [FeSub] borrows: every minuend [a[i] + K_i] is the
    exact sum and is at least the subtrahend [t[i]]. *)
Definition no_underflow (a b : FieldElement) : Prop :=
  let t := FeSub_t b in
  let m := FeSub_m a in
  (l0 m = l0 a + K0 /\ l0 t <= l0 m) /\
  (l1 m = l1 a + K1 /\ l1 t <= l1 m) /\
  (l2 m = l2 a + K1 /\ l2 t <= l2 m) /\
  (l3 m = l3 a + K1 /\ l3 t <= l3 m) /\
  (l4 m = l4 a + K1 /\ l4 t <= l4 m).

(** A statement that leaves an observation of the memory as it was. *)
Definition keeps {A : Type} (obs : mem -> A) (s : stmt) : Prop :=
  forall m : mem, obs (s m) = obs m.

(** The field element at [q]. *)
Definition fe_at (q : loc) : mem -> FieldElement := fun m => fes m q.

(** The bound the carry sequence leaves: limb 0 keeps a residue of the
    last wrap-around, the others are below [2^51]. *)
Definition tight (t : FieldElement) : Prop :=
  (0 <= l0 t < 2 ^ 51 + 19 * 2 ^ 13) /\ (0 <= l1 t < 2 ^ 51) /\
  (0 <= l2 t < 2 ^ 51) /\ (0 <= l3 t < 2 ^ 51) /\ (0 <= l4 t < 2 ^ 51).

(** Reduced form: limbs below [2^51] and value below the modulus. *)
Definition reduced (t : FieldElement) : Prop :=
  fe_below 51 t /\ feval t < p25519.

(** ** Sample inputs *)

Definition ex_a : FieldElement :=
  FE (2 ^ 54 - 1) 7 (2 ^ 53) 0 (2 ^ 54 - 19).

Definition ex_b : FieldElement :=
  FE 3 (2 ^ 54 - 1) 1 (2 ^ 52 + 5) (2 ^ 54 - 1).

(** An operand whose limbs use all 64 bits where the carries allow. *)
Definition ex_wide : FieldElement :=
  FE (2 ^ 64 - 1) (2 ^ 64 - 2 ^ 13) 5 (2 ^ 63) (2 ^ 64 - 2 ^ 13).

(** An operand on which the first carry of [FeSub] wraps around. *)
Definition ex_wrap : FieldElement :=
  FE (2 ^ 51) (2 ^ 64 - 1) 0 0 0.

(** A buffer with bit 255 set whose low 255 bits encode [p + 1]. *)
Definition ex_buf : list Z :=
  [0xee; 0xff; 0xff; 0xff; 0xff; 0xff; 0xff; 0xff; 0xff; 0xff; 0xff; 0xff;
   0xff; 0xff; 0xff; 0xff; 0xff; 0xff; 0xff; 0xff; 0xff; 0xff; 0xff; 0xff;
   0xff; 0xff; 0xff; 0xff; 0xff; 0xff; 0xff; 0xff].

(** A field element as the carry sequences leave it. *)
Definition ex_tight : FieldElement :=
  FE (2 ^ 51 + 100) (2 ^ 51 - 1) 0 5 (2 ^ 51 - 1).

(** A memory with two objects in use and a 32-byte buffer at 0. *)
Definition ex_mem : mem :=
  Mem (fun q => if Nat.eqb q 0%nat then ex_a else ex_b)
      (fun _ => repeat 0 32%nat) 2%nat.

(** ** Facts about words *)

Lemma testbit_high (a n i : Z) :
  0 <= a < 2 ^ n -> n <= i -> Z.testbit a i = false.
Proof.
  intros Ha Hi.
  destruct (Z.le_gt_cases 0 n) as [Hn | Hn].
  - rewrite <- (Z.mod_small a (2 ^ n)) by exact Ha.
    apply Z.mod_pow2_bits_high; lia.
  - rewrite Z.pow_neg_r in Ha by lia. lia.
Qed.

Lemma land_disjoint (a b n : Z) :
  0 <= a < 2 ^ n -> Z.land a (b * 2 ^ n) = 0.
Proof.
  intros Ha. apply Z.bits_inj'. intros i Hi.
  rewrite Z.land_spec, Z.bits_0.
  destruct (Z.lt_ge_cases i n) as [Hlt | Hge].
  - rewrite Z.mul_pow2_bits_low by lia. apply andb_false_r.
  - rewrite (testbit_high a n i) by assumption. reflexivity.
Qed.

Lemma lor_disjoint (a b n : Z) :
  0 <= a < 2 ^ n -> Z.lor a (b * 2 ^ n) = a + b * 2 ^ n.
Proof.
  intros Ha.
  rewrite <- (Z.add_lor_land a (b * 2 ^ n)), land_disjoint by exact Ha.
  lia.
Qed.

Lemma lxor_disjoint (a b n : Z) :
  0 <= a < 2 ^ n -> Z.lxor a (b * 2 ^ n) = a + b * 2 ^ n.
Proof.
  intros Ha. symmetry. apply Z.add_nocarry_lxor, land_disjoint, Ha.
Qed.

Lemma wrap_small (a : Z) : U64.ok a -> U64.wrap a = a.
Proof. unfold U64.ok, U64.wrap. intros H. apply Z.mod_small, H. Qed.

Lemma add_small (a b : Z) :
  0 <= a -> 0 <= b -> a + b < 2 ^ 64 -> U64.add a b = a + b.
Proof. intros. apply wrap_small. unfold U64.ok, U64.wB. lia. Qed.

Lemma mul_small (a b : Z) :
  0 <= a * b < 2 ^ 64 -> U64.mul a b = a * b.
Proof. intros. apply wrap_small. exact H. Qed.

Lemma shr_div (a n : Z) : 0 <= n -> U64.shr a n = a / 2 ^ n.
Proof. apply Z.shiftr_div_pow2. Qed.

Lemma shl_small (a n : Z) :
  0 <= n -> 0 <= a * 2 ^ n < 2 ^ 64 -> U64.shl a n = a * 2 ^ n.
Proof.
  intros Hn H. unfold U64.shl. rewrite Z.shiftl_mul_pow2 by exact Hn.
  apply wrap_small, H.
Qed.

Lemma and_mask51 (a : Z) : U64.and a maskLow51Bits = a mod 2 ^ 51.
Proof. change maskLow51Bits with (Z.ones 51). apply Z.land_ones. lia. Qed.

Lemma and_ff (a : Z) : U64.and a 0xff = a mod 2 ^ 8.
Proof. change 0xff with (Z.ones 8). apply Z.land_ones. lia. Qed.

(** The double-word shift [(hi << 13) | (lo >> 51)]. *)
Lemma shld13 (lo hi : Z) :
  0 <= lo < 2 ^ 64 -> 0 <= hi < 2 ^ 51 ->
  U64.or (U64.shl hi 13) (U64.shr lo 51) = (lo + 2 ^ 64 * hi) / 2 ^ 51.
Proof.
  intros Hlo Hhi.
  rewrite shl_small, shr_div by lia.
  unfold U64.or. rewrite Z.lor_comm, lor_disjoint.
  - replace (lo + 2 ^ 64 * hi) with (lo + (hi * 2 ^ 13) * 2 ^ 51) by lia.
    rewrite Z.div_add by lia. reflexivity.
  - split; [apply Z.div_pos; lia | apply Z.div_lt_upper_bound; lia].
Qed.


(** ** [mul64] accumulates a 128-bit sum *)

Lemma mul64_spec (accLo accHi x y : Z) :
  U64.ok accLo -> U64.ok accHi -> 0 <= x * y ->
  accLo + 2 ^ 64 * accHi + x * y < 2 ^ 128 ->
  let '(ol, oh) := mul64 accLo accHi x y in
  ol + 2 ^ 64 * oh = accLo + 2 ^ 64 * accHi + x * y /\
  U64.ok ol /\ U64.ok oh.
Proof.
  unfold U64.ok, mul64, U64.bits_Mul64, U64.add, U64.wrap, U64.wB.
  intros Hlo Hhi Hxy Hsum.
  set (P := x * y) in *.
  assert (HP : P = 2 ^ 64 * (P / 2 ^ 64) + P mod 2 ^ 64)
    by (apply Z.div_mod; lia).
  assert (Hl : 0 <= P mod 2 ^ 64 < 2 ^ 64) by (apply Z.mod_pos_bound; lia).
  assert (Hh : 0 <= P / 2 ^ 64) by (apply Z.div_pos; lia).
  set (h := P / 2 ^ 64) in *. set (l := P mod 2 ^ 64) in *.
  clearbody h l P.
  destruct (Z.lt_ge_cases (l + accLo) (2 ^ 64)) as [Hnc | Hc].
  - rewrite (Z.mod_small (l + accLo)) by lia.
    destruct (Z.ltb_spec (l + accLo) accLo) as [Hb | Hb]; [lia |].
    rewrite (Z.mod_small (h + accHi)) by lia. lia.
  - replace ((l + accLo) mod 2 ^ 64) with (l + accLo - 2 ^ 64).
    2:{ apply Z.mod_unique with (q := 1); lia. }
    destruct (Z.ltb_spec (l + accLo - 2 ^ 64) accLo) as [Hb | Hb]; [| lia].
    rewrite (Z.mod_small (h + 1)) by lia.
    rewrite (Z.mod_small (h + 1 + accHi)) by lia. lia.
Qed.

(** ** Congruence modulo the prime *)

Lemma mod_p_shift (a b k : Z) :
  a = b + k * p25519 -> a mod p25519 = b mod p25519.
Proof. intros ->. apply Z.mod_add. unfold p25519. lia. Qed.

(** Names the quotient and remainder of [a] by [2^51]. *)
Ltac split51 a q r :=
  let Hd := fresh "Hd" in
  let Hr := fresh "Hr" in
  assert (Hd : a = 2 ^ 51 * (a / 2 ^ 51) + a mod 2 ^ 51)
    by (apply Z.div_mod; lia);
  assert (Hr : 0 <= a mod 2 ^ 51 < 2 ^ 51)
    by (apply Z.mod_pos_bound; lia);
  set (q := a / 2 ^ 51) in *;
  set (r := a mod 2 ^ 51) in *;
  clearbody q r.

Lemma wide_low51 (lo hi : Z) :
  U64.and lo maskLow51Bits = (lo + 2 ^ 64 * hi) mod 2 ^ 51.
Proof.
  rewrite and_mask51.
  replace (lo + 2 ^ 64 * hi) with (lo + (hi * 2 ^ 13) * 2 ^ 51) by lia.
  rewrite Z.mod_add by lia. reflexivity.
Qed.

Section CarryWide.

Variables r0 r1 r2 r3 r4 : Z * Z.
Hypothesis ok0 : wide_ok r0.
Hypothesis ok1 : wide_ok r1.
Hypothesis ok2 : wide_ok r2.
Hypothesis ok3 : wide_ok r3.
Hypothesis ok4 : wide_ok r4.
Hypothesis b0 : wide r0 < 100 * 2 ^ 108.
Hypothesis b1 : wide r1 < 100 * 2 ^ 108.
Hypothesis b2 : wide r2 < 100 * 2 ^ 108.
Hypothesis b3 : wide r3 < 100 * 2 ^ 108.
Hypothesis b4 : wide r4 < 6 * 2 ^ 108.

Lemma carry_wide_spec :
  tight (carry_wide r0 r1 r2 r3 r4) /\
  exists k : Z,
    feval (carry_wide r0 r1 r2 r3 r4) =
    wide r0 + wide r1 * 2 ^ 51 + wide r2 * 2 ^ 102 + wide r3 * 2 ^ 153 +
    wide r4 * 2 ^ 204 + k * p25519.
Proof.
  destruct r0 as [lo0 hi0], r1 as [lo1 hi1], r2 as [lo2 hi2],
           r3 as [lo3 hi3], r4 as [lo4 hi4].
  unfold wide_ok, wide, U64.ok, U64.wB in *. cbn [fst snd] in *.
  unfold carry_wide. cbv zeta.
  rewrite (shld13 lo0 hi0), (shld13 lo1 hi1), (shld13 lo2 hi2),
    (shld13 lo3 hi3), (shld13 lo4 hi4) by lia.
  rewrite (wide_low51 lo0 hi0), (wide_low51 lo1 hi1), (wide_low51 lo2 hi2),
    (wide_low51 lo3 hi3), (wide_low51 lo4 hi4).
  set (R0 := lo0 + 2 ^ 64 * hi0) in *. set (R1 := lo1 + 2 ^ 64 * hi1) in *.
  set (R2 := lo2 + 2 ^ 64 * hi2) in *. set (R3 := lo3 + 2 ^ 64 * hi3) in *.
  set (R4 := lo4 + 2 ^ 64 * hi4) in *.
  assert (0 <= R0 /\ 0 <= R1 /\ 0 <= R2 /\ 0 <= R3 /\ 0 <= R4)
    as (p0 & p1 & p2 & p3 & p4) by (unfold R0, R1, R2, R3, R4; lia).
  clearbody R0 R1 R2 R3 R4.
  clear ok0 ok1 ok2 ok3 ok4 lo0 hi0 lo1 hi1 lo2 hi2 lo3 hi3 lo4 hi4.
  split51 R0 q0 m0. split51 R1 q1 m1. split51 R2 q2 m2.
  split51 R3 q3 m3. split51 R4 q4 m4.
  rewrite (add_small m1 q0), (add_small m2 q1), (add_small m3 q2),
    (add_small m4 q3), (mul_small q4 19), (add_small m0 (q4 * 19)) by lia.
  rewrite !and_mask51, !shr_div by lia.
  split51 (m0 + q4 * 19) c0 n0.
  rewrite (add_small (m1 + q0) c0) by lia.
  split51 (m1 + q0 + c0) c1 n1.
  rewrite (add_small (m2 + q1) c1) by lia.
  split51 (m2 + q1 + c1) c2 n2.
  rewrite (add_small (m3 + q2) c2) by lia.
  split51 (m3 + q2 + c2) c3 n3.
  rewrite (add_small (m4 + q3) c3) by lia.
  split51 (m4 + q3 + c3) c4 n4.
  rewrite (mul_small c4 19), (add_small n0 (c4 * 19)) by lia.
  split.
  - unfold tight. cbn [l0 l1 l2 l3 l4]. lia.
  - exists (- (q4 + c4)). unfold feval, p25519. cbn [l0 l1 l2 l3 l4]. lia.
Qed.

End CarryWide.

(** ** The accumulated coefficients *)

Lemma prod_bound (a b c : Z) :
  0 <= a < 2 ^ 54 -> 0 <= b < 2 ^ 54 -> 0 <= c ->
  0 <= a * c * b <= c * 2 ^ 108.
Proof.
  intros Ha Hb Hc. split.
  - apply Z.mul_nonneg_nonneg; [apply Z.mul_nonneg_nonneg |]; lia.
  - replace (c * 2 ^ 108) with (2 ^ 54 * c * 2 ^ 54) by lia.
    assert (H1 : a * c <= 2 ^ 54 * c) by (apply Z.mul_le_mono_nonneg_r; lia).
    assert (H2 : 0 <= a * c) by (apply Z.mul_nonneg_nonneg; lia).
    apply Z.mul_le_mono_nonneg; lia.
Qed.

Lemma prod_bound1 (a b : Z) :
  0 <= a < 2 ^ 54 -> 0 <= b < 2 ^ 54 -> 0 <= a * b <= 2 ^ 108.
Proof.
  intros Ha Hb. pose proof (prod_bound a b 1 Ha Hb). lia.
Qed.

Lemma wide_ok_zero : wide_ok (0, 0) /\ wide (0, 0) = 0.
Proof. unfold wide_ok, wide, U64.ok, U64.wB. cbn. lia. Qed.

(** One accumulation step, on pairs. *)
Lemma mac_spec (acc : Z * Z) (x y A B : Z) :
  wide_ok acc /\ wide acc = A -> 0 <= x * y <= B -> A + B < 2 ^ 128 ->
  wide_ok (mac acc x y) /\ wide (mac acc x y) = A + x * y.
Proof.
  intros [[Hlo Hhi] Hw] Hxy Hsum. unfold wide, mac in *.
  assert (Hs : fst acc + 2 ^ 64 * snd acc + x * y < 2 ^ 128) by lia.
  pose proof (mul64_spec (fst acc) (snd acc) x y Hlo Hhi (proj1 Hxy) Hs) as H.
  destruct (mul64 (fst acc) (snd acc) x y) as [ol oh].
  unfold wide_ok. cbn [fst snd]. split; [tauto | lia].
Qed.

Lemma mac5_spec (x1 y1 x2 y2 x3 y3 x4 y4 x5 y5 : Z) :
  0 <= x1 * y1 <= 38 * 2 ^ 108 -> 0 <= x2 * y2 <= 38 * 2 ^ 108 ->
  0 <= x3 * y3 <= 38 * 2 ^ 108 -> 0 <= x4 * y4 <= 38 * 2 ^ 108 ->
  0 <= x5 * y5 <= 38 * 2 ^ 108 ->
  let r := mac (mac (mac (mac (mac (0, 0) x1 y1) x2 y2) x3 y3) x4 y4) x5 y5 in
  wide_ok r /\ wide r = x1 * y1 + x2 * y2 + x3 * y3 + x4 * y4 + x5 * y5.
Proof.
  intros H1 H2 H3 H4 H5 r. subst r.
  pose proof (mac_spec (0, 0) x1 y1 0 _ wide_ok_zero H1 ltac:(lia)) as E1.
  pose proof (mac_spec _ x2 y2 _ _ E1 H2 ltac:(lia)) as E2.
  pose proof (mac_spec _ x3 y3 _ _ E2 H3 ltac:(lia)) as E3.
  pose proof (mac_spec _ x4 y4 _ _ E3 H4 ltac:(lia)) as E4.
  pose proof (mac_spec _ x5 y5 _ _ E4 H5 ltac:(lia)) as E5.
  destruct E5 as [Hk Hv]. split; [exact Hk | rewrite Hv; lia].
Qed.

Lemma mac3_spec (x1 y1 x2 y2 x3 y3 : Z) :
  0 <= x1 * y1 <= 38 * 2 ^ 108 -> 0 <= x2 * y2 <= 38 * 2 ^ 108 ->
  0 <= x3 * y3 <= 38 * 2 ^ 108 ->
  let r := mac (mac (mac (0, 0) x1 y1) x2 y2) x3 y3 in
  wide_ok r /\ wide r = x1 * y1 + x2 * y2 + x3 * y3.
Proof.
  intros H1 H2 H3 r. subst r.
  pose proof (mac_spec (0, 0) x1 y1 0 _ wide_ok_zero H1 ltac:(lia)) as E1.
  pose proof (mac_spec _ x2 y2 _ _ E1 H2 ltac:(lia)) as E2.
  pose proof (mac_spec _ x3 y3 _ _ E2 H3 ltac:(lia)) as E3.
  destruct E3 as [Hk Hv]. split; [exact Hk | rewrite Hv; lia].
Qed.

(** Names the result of every [mul64] call, outermost first. *)
Ltac name_mul64 :=
  repeat match goal with
         | |- context [mul64 ?lo ?hi ?x ?y] =>
             destruct (mul64 lo hi x y); cbn [fst snd]
         end.

(** [FeMul] is the carry sequence applied to its five accumulations. *)
Lemma FeMul_unfold (x y : FieldElement) :
  FeMul x y =
  let x1_19 := U64.mul (l1 x) 19 in
  let x2_19 := U64.mul (l2 x) 19 in
  let x3_19 := U64.mul (l3 x) 19 in
  let x4_19 := U64.mul (l4 x) 19 in
  carry_wide
    (mac (mac (mac (mac (mac (0, 0) (l0 x) (l0 y)) x1_19 (l4 y))
       x2_19 (l3 y)) x3_19 (l2 y)) x4_19 (l1 y))
    (mac (mac (mac (mac (mac (0, 0) (l0 x) (l1 y)) (l1 x) (l0 y))
       x2_19 (l4 y)) x3_19 (l3 y)) x4_19 (l2 y))
    (mac (mac (mac (mac (mac (0, 0) (l0 x) (l2 y)) (l1 x) (l1 y))
       (l2 x) (l0 y)) x3_19 (l4 y)) x4_19 (l3 y))
    (mac (mac (mac (mac (mac (0, 0) (l0 x) (l3 y)) (l1 x) (l2 y))
       (l2 x) (l1 y)) (l3 x) (l0 y)) x4_19 (l4 y))
    (mac (mac (mac (mac (mac (0, 0) (l0 x) (l4 y)) (l1 x) (l3 y))
       (l2 x) (l2 y)) (l3 x) (l1 y)) (l4 x) (l0 y)).
Proof.
  unfold FeMul, mac. cbv zeta. cbn [fst snd].
  name_mul64. reflexivity.
Qed.

Lemma FeSquare_unfold (x : FieldElement) :
  FeSquare x =
  let x0_2 := U64.shl (l0 x) 1 in
  let x1_2 := U64.shl (l1 x) 1 in
  let x1_38 := U64.mul (l1 x) 38 in
  let x2_38 := U64.mul (l2 x) 38 in
  let x3_38 := U64.mul (l3 x) 38 in
  let x3_19 := U64.mul (l3 x) 19 in
  let x4_19 := U64.mul (l4 x) 19 in
  carry_wide
    (mac (mac (mac (0, 0) (l0 x) (l0 x)) x1_38 (l4 x)) x2_38 (l3 x))
    (mac (mac (mac (0, 0) x0_2 (l1 x)) x2_38 (l4 x)) x3_19 (l3 x))
    (mac (mac (mac (0, 0) x0_2 (l2 x)) (l1 x) (l1 x)) x3_38 (l4 x))
    (mac (mac (mac (0, 0) x0_2 (l3 x)) x1_2 (l2 x)) x4_19 (l4 x))
    (mac (mac (mac (0, 0) x0_2 (l4 x)) x1_2 (l3 x)) (l2 x) (l2 x)).
Proof.
  unfold FeSquare, mac. cbv zeta. cbn [fst snd].
  name_mul64. reflexivity.
Qed.

(** Bounds every product fed to [mac] in the goal. *)
Ltac prod_bounds :=
  repeat match goal with
         | |- context [mac _ ?a ?b] =>
             lazymatch goal with
             | H : 0 <= a * b <= _ |- _ => fail
             | _ => idtac
             end;
             lazymatch a with
             | ?u * ?c =>
                 pose proof
                   (prod_bound u b c ltac:(lia) ltac:(lia) ltac:(lia))
             | _ => pose proof (prod_bound1 a b ltac:(lia) ltac:(lia))
             end
         end.

Ltac chain_holds :=
  prod_bounds;
  let Hk := fresh "Hk" in
  let Hv := fresh "Hv" in
  lazymatch goal with
  | |- holds (mac (mac (mac (mac (mac _ ?a1 ?b1) ?a2 ?b2) ?a3 ?b3) ?a4 ?b4)
                ?a5 ?b5) _ _ =>
      destruct (mac5_spec a1 b1 a2 b2 a3 b3 a4 b4 a5 b5) as [Hk Hv];
      [lia .. |]
  | |- holds (mac (mac (mac _ ?a1 ?b1) ?a2 ?b2) ?a3 ?b3) _ _ =>
      destruct (mac3_spec a1 b1 a2 b2 a3 b3) as [Hk Hv]; [lia .. |]
  end;
  split; [exact Hk | split; [rewrite Hv; lia | lia]].

Section MulSquare.

Variables x0 x1 x2 x3 x4 : Z.
Hypothesis Hx0 : 0 <= x0 < 2 ^ 54.
Hypothesis Hx1 : 0 <= x1 < 2 ^ 54.
Hypothesis Hx2 : 0 <= x2 < 2 ^ 54.
Hypothesis Hx3 : 0 <= x3 < 2 ^ 54.
Hypothesis Hx4 : 0 <= x4 < 2 ^ 54.

Let x := FE x0 x1 x2 x3 x4.

Section Mul.

Variables y0 y1 y2 y3 y4 : Z.
Hypothesis Hy0 : 0 <= y0 < 2 ^ 54.
Hypothesis Hy1 : 0 <= y1 < 2 ^ 54.
Hypothesis Hy2 : 0 <= y2 < 2 ^ 54.
Hypothesis Hy3 : 0 <= y3 < 2 ^ 54.
Hypothesis Hy4 : 0 <= y4 < 2 ^ 54.

Let y := FE y0 y1 y2 y3 y4.

Lemma FeMul_carry :
  exists r0 r1 r2 r3 r4 : Z * Z,
    FeMul x y = carry_wide r0 r1 r2 r3 r4 /\
    holds r0 (x0 * y0 + x1 * 19 * y4 + x2 * 19 * y3 + x3 * 19 * y2 +
              x4 * 19 * y1) (100 * 2 ^ 108) /\
    holds r1 (x0 * y1 + x1 * y0 + x2 * 19 * y4 + x3 * 19 * y3 +
              x4 * 19 * y2) (100 * 2 ^ 108) /\
    holds r2 (x0 * y2 + x1 * y1 + x2 * y0 + x3 * 19 * y4 +
              x4 * 19 * y3) (100 * 2 ^ 108) /\
    holds r3 (x0 * y3 + x1 * y2 + x2 * y1 + x3 * y0 + x4 * 19 * y4)
             (100 * 2 ^ 108) /\
    holds r4 (x0 * y4 + x1 * y3 + x2 * y2 + x3 * y1 + x4 * y0)
             (6 * 2 ^ 108).
Proof.
  rewrite FeMul_unfold. subst x y. cbn [l0 l1 l2 l3 l4]. cbv zeta.
  rewrite (mul_small x1 19), (mul_small x2 19), (mul_small x3 19),
    (mul_small x4 19) by lia.
  do 5 eexists. split; [reflexivity |].
  split; [| split; [| split; [| split]]]; chain_holds.
Qed.

End Mul.

Lemma FeSquare_carry :
  exists r0 r1 r2 r3 r4 : Z * Z,
    FeSquare x = carry_wide r0 r1 r2 r3 r4 /\
    holds r0 (x0 * x0 + x1 * 19 * x4 + x2 * 19 * x3 + x3 * 19 * x2 +
              x4 * 19 * x1) (100 * 2 ^ 108) /\
    holds r1 (x0 * x1 + x1 * x0 + x2 * 19 * x4 + x3 * 19 * x3 +
              x4 * 19 * x2) (100 * 2 ^ 108) /\
    holds r2 (x0 * x2 + x1 * x1 + x2 * x0 + x3 * 19 * x4 +
              x4 * 19 * x3) (100 * 2 ^ 108) /\
    holds r3 (x0 * x3 + x1 * x2 + x2 * x1 + x3 * x0 + x4 * 19 * x4)
             (100 * 2 ^ 108) /\
    holds r4 (x0 * x4 + x1 * x3 + x2 * x2 + x3 * x1 + x4 * x0)
             (6 * 2 ^ 108).
Proof.
  rewrite FeSquare_unfold. subst x. cbn [l0 l1 l2 l3 l4]. cbv zeta.
  rewrite (shl_small x0 1), (shl_small x1 1), (mul_small x1 38),
    (mul_small x2 38), (mul_small x3 38), (mul_small x3 19),
    (mul_small x4 19) by lia.
  do 5 eexists. split; [reflexivity |].
  split; [| split; [| split; [| split]]]; chain_holds.
Qed.

End MulSquare.

Lemma holds_bound (r : Z * Z) (W B : Z) : holds r W B -> wide r < B.
Proof. intros (_ & -> & H). exact H. Qed.

Lemma holds_ok (r : Z * Z) (W B : Z) : holds r W B -> wide_ok r.
Proof. intros (H & _). exact H. Qed.

(** Two accumulators with the same value are the same pair of words. *)
Lemma holds_inj (r r' : Z * Z) (W B B' : Z) :
  holds r W B -> holds r' W B' -> r = r'.
Proof.
  destruct r as [lo hi], r' as [lo' hi'].
  unfold holds, wide_ok, wide, U64.ok, U64.wB. cbn [fst snd].
  intros (Hk & Hv & _) (Hk' & Hv' & _).
  assert (lo = lo' /\ hi = hi') as [-> ->] by lia. reflexivity.
Qed.

(** [FeMul] on loose inputs: the output is tight and stands for the
    product modulo the prime. *)
Lemma FeMul_spec (x y : FieldElement) :
  loose x -> loose y ->
  tight (FeMul x y) /\
  exists k : Z, feval (FeMul x y) = feval x * feval y + k * p25519.
Proof.
  destruct x as [x0 x1 x2 x3 x4], y as [y0 y1 y2 y3 y4].
  unfold loose, fe_below. cbn [l0 l1 l2 l3 l4].
  intros (Hx0 & Hx1 & Hx2 & Hx3 & Hx4) (Hy0 & Hy1 & Hy2 & Hy3 & Hy4).
  destruct (FeMul_carry x0 x1 x2 x3 x4 Hx0 Hx1 Hx2 Hx3 Hx4
              y0 y1 y2 y3 y4 Hy0 Hy1 Hy2 Hy3 Hy4)
    as (r0 & r1 & r2 & r3 & r4 & E & C0 & C1 & C2 & C3 & C4).
  rewrite E.
  destruct (carry_wide_spec r0 r1 r2 r3 r4) as [T [k Hk]];
    eauto using holds_ok, holds_bound.
  split; [exact T |].
  destruct C0 as (_ & v0 & _), C1 as (_ & v1 & _), C2 as (_ & v2 & _),
    C3 as (_ & v3 & _), C4 as (_ & v4 & _).
  rewrite Hk, v0, v1, v2, v3, v4.
  exists (k - (x1 * y4 + x2 * y3 + x3 * y2 + x4 * y1
               + (x2 * y4 + x3 * y3 + x4 * y2) * 2 ^ 51
               + (x3 * y4 + x4 * y3) * 2 ^ 102
               + x4 * y4 * 2 ^ 153)).
  unfold feval, p25519. cbn [l0 l1 l2 l3 l4]. ring.
Qed.

(** On loose inputs [FeSquare] computes the very limbs of [FeMul x x]. *)
Lemma FeSquare_FeMul (x : FieldElement) :
  loose x -> FeSquare x = FeMul x x.
Proof.
  destruct x as [x0 x1 x2 x3 x4].
  unfold loose, fe_below. cbn [l0 l1 l2 l3 l4].
  intros (Hx0 & Hx1 & Hx2 & Hx3 & Hx4).
  destruct (FeMul_carry x0 x1 x2 x3 x4 Hx0 Hx1 Hx2 Hx3 Hx4
              x0 x1 x2 x3 x4 Hx0 Hx1 Hx2 Hx3 Hx4)
    as (r0 & r1 & r2 & r3 & r4 & E & C0 & C1 & C2 & C3 & C4).
  destruct (FeSquare_carry x0 x1 x2 x3 x4 Hx0 Hx1 Hx2 Hx3 Hx4)
    as (s0 & s1 & s2 & s3 & s4 & E' & D0 & D1 & D2 & D3 & D4).
  rewrite E, E'.
  rewrite (holds_inj _ _ _ _ _ C0 D0), (holds_inj _ _ _ _ _ C1 D1),
    (holds_inj _ _ _ _ _ C2 D2), (holds_inj _ _ _ _ _ C3 D3),
    (holds_inj _ _ _ _ _ C4 D4).
  reflexivity.
Qed.

(** ** The limb carry pass of [FeSub] and [feReduce] *)

Lemma wrap_range (z : Z) : 0 <= U64.wrap z < 2 ^ 64.
Proof. apply Z.mod_pos_bound. reflexivity. Qed.

(** Whatever the words of [b], the pass leaves tight limbs. *)
Lemma FeSub_t_tight (b : FieldElement) : tight (FeSub_t b).
Proof.
  unfold FeSub_t, tight. cbv zeta. cbn [l0 l1 l2 l3 l4].
  rewrite !and_mask51, !shr_div by lia.
  set (t4 := U64.add (l4 b) _).
  assert (H4 : 0 <= t4 < 2 ^ 64) by apply wrap_range.
  clearbody t4.
  split51 t4 c4 n4.
  rewrite (mul_small c4 19) by lia.
  pose proof (Z.mod_pos_bound (l0 b) (2 ^ 51) ltac:(lia)).
  rewrite add_small by lia.
  repeat split; try apply Z.mod_pos_bound; lia.
Qed.

(** With room for the carries, the pass keeps the value modulo the prime. *)
Lemma FeSub_t_value (b : FieldElement) :
  fe_ok b -> carry_room b ->
  exists k : Z, 0 <= k /\ feval (FeSub_t b) = feval b - k * p25519.
Proof.
  destruct b as [b0 b1 b2 b3 b4].
  unfold fe_ok, carry_room, U64.ok, U64.wB. cbn [l0 l1 l2 l3 l4].
  intros (H0 & H1 & H2 & H3 & H4) (R1 & R2 & R3 & R4).
  unfold FeSub_t. cbv zeta. cbn [l0 l1 l2 l3 l4].
  rewrite !and_mask51, !shr_div by lia.
  split51 b0 c0 n0.
  rewrite (add_small b1 c0) by lia.
  split51 (b1 + c0) c1 n1.
  rewrite (add_small b2 c1) by lia.
  split51 (b2 + c1) c2 n2.
  rewrite (add_small b3 c2) by lia.
  split51 (b3 + c2) c3 n3.
  rewrite (add_small b4 c3) by lia.
  split51 (b4 + c3) c4 n4.
  rewrite (mul_small c4 19), (add_small n0 (c4 * 19)) by lia.
  exists c4. unfold feval, p25519. cbn [l0 l1 l2 l3 l4]. lia.
Qed.

(** ** [FeSub] *)

Lemma FeSub_no_underflow (a b : FieldElement) :
  loose a -> no_underflow a b.
Proof.
  intros Ha. pose proof (FeSub_t_tight b) as Ht.
  unfold no_underflow. cbv zeta.
  destruct (FeSub_t b) as [t0 t1 t2 t3 t4].
  destruct a as [a0 a1 a2 a3 a4].
  unfold loose, fe_below, tight, FeSub_m, K0, K1 in *.
  cbn [l0 l1 l2 l3 l4] in *.
  rewrite !add_small by lia. lia.
Qed.

Lemma FeSub_value (a b : FieldElement) :
  loose a -> fe_ok b -> carry_room b ->
  exists k : Z, feval (FeSub a b) = feval a - feval b + k * p25519.
Proof.
  intros Ha Hb Hr.
  pose proof (FeSub_no_underflow a b Ha) as Hn.
  pose proof (FeSub_t_tight b) as Ht.
  destruct (FeSub_t_value b Hb Hr) as (k & _ & Hk).
  unfold FeSub, no_underflow in *. cbv zeta in *.
  destruct (FeSub_t b) as [t0 t1 t2 t3 t4].
  destruct (FeSub_m a) as [m0 m1 m2 m3 m4].
  destruct a as [a0 a1 a2 a3 a4].
  unfold loose, fe_below, tight, K0, K1, U64.sub in *.
  cbn [l0 l1 l2 l3 l4] in *.
  rewrite !wrap_small by (unfold U64.ok, U64.wB; lia).
  exists (2 + k). unfold feval, p25519 in *. cbn [l0 l1 l2 l3 l4] in *. lia.
Qed.

(** ** [feReduce] *)

Lemma feReduce_unfold (v : FieldElement) :
  feReduce v = final_pass (FeSub_t v).
Proof. reflexivity. Qed.

(** From tight limbs, the final pass reaches the canonical
    representative. *)
Lemma final_pass_spec (t : FieldElement) :
  tight t ->
  reduced (final_pass t) /\
  exists c : Z, 0 <= c /\ feval (final_pass t) = feval t - c * p25519.
Proof.
  destruct t as [t0 t1 t2 t3 t4].
  unfold tight. cbn [l0 l1 l2 l3 l4].
  intros (H0 & H1 & H2 & H3 & H4).
  unfold final_pass. cbv zeta. cbn [l0 l1 l2 l3 l4].
  rewrite !and_mask51, !shr_div by lia.
  (* the carry bit *)
  rewrite (add_small t0 19) by lia.
  split51 (t0 + 19) c0 e0.
  rewrite (add_small t1 c0) by lia.
  split51 (t1 + c0) c1 e1.
  rewrite (add_small t2 c1) by lia.
  split51 (t2 + c1) c2 e2.
  rewrite (add_small t3 c2) by lia.
  split51 (t3 + c2) c3 e3.
  rewrite (add_small t4 c3) by lia.
  split51 (t4 + c3) c e4.
  assert (Hc : c = 0 \/ c = 1) by lia.
  rewrite (mul_small 19 c), (add_small t0 (19 * c)) by lia.
  (* the last carry pass *)
  split51 (t0 + 19 * c) d0 n0.
  assert (Hm0 : 0 <= d0 <= c0 /\ (c = 1 -> d0 = c0 /\ n0 = e0)) by lia.
  rewrite (add_small t1 d0) by lia.
  split51 (t1 + d0) d1 n1.
  assert (Hm1 : 0 <= d1 <= c1 /\ (c = 1 -> d1 = c1 /\ n1 = e1)) by lia.
  rewrite (add_small t2 d1) by lia.
  split51 (t2 + d1) d2 n2.
  assert (Hm2 : 0 <= d2 <= c2 /\ (c = 1 -> d2 = c2 /\ n2 = e2)) by lia.
  rewrite (add_small t3 d2) by lia.
  split51 (t3 + d2) d3 n3.
  assert (Hm3 : 0 <= d3 <= c3 /\ (c = 1 -> d3 = c3 /\ n3 = e3)) by lia.
  rewrite (add_small t4 d3) by lia.
  split51 (t4 + d3) d4 n4.
  assert (Hm4 : d4 = c) by lia.
  unfold reduced, fe_below, feval, p25519. cbn [l0 l1 l2 l3 l4].
  split; [split; [lia |] | exists c; split; [lia |]].
  - destruct Hc as [-> | ->]; lia.
  - lia.
Qed.

Lemma feReduce_spec (v : FieldElement) :
  fe_ok v -> carry_room v ->
  reduced (feReduce v) /\ feval (feReduce v) = feval v mod p25519.
Proof.
  intros Hv Hr. rewrite feReduce_unfold.
  destruct (final_pass_spec (FeSub_t v) (FeSub_t_tight v))
    as [Hred (c & Hc & Hval)].
  destruct (FeSub_t_value v Hv Hr) as (k & Hk & Hval').
  split; [exact Hred |].
  destruct Hred as [Hlimbs Hlt].
  apply Z.mod_unique with (q := k + c).
  - left. split; [| exact Hlt].
    destruct (final_pass (FeSub_t v)) as [u0 u1 u2 u3 u4].
    unfold fe_below, feval in *. cbn [l0 l1 l2 l3 l4] in *. lia.
  - rewrite Hval, Hval'. lia.
Qed.

Lemma loose_fe_ok (v : FieldElement) : loose v -> fe_ok v /\ carry_room v.
Proof.
  unfold loose, fe_below, fe_ok, carry_room, U64.ok, U64.wB. lia.
Qed.

(** ** Little-endian byte strings *)

Lemma le_encode_length (n : nat) (z : Z) : length (le_encode n z) = n.
Proof.
  revert z. induction n as [| n IH]; intros z; cbn [le_encode length].
  - reflexivity.
  - rewrite IH. reflexivity.
Qed.

Lemma le_encode_bytes (n : nat) (z : Z) : Forall is_byte (le_encode n z).
Proof.
  revert z. induction n as [| n IH]; intros z; cbn [le_encode].
  - constructor.
  - constructor; [| apply IH].
    unfold is_byte. apply Z.mod_pos_bound. lia.
Qed.

Lemma le_decode_encode (n : nat) (z : Z) :
  le_decode (le_encode n z) = z mod 2 ^ (8 * Z.of_nat n).
Proof.
  revert z. induction n as [| n IH]; intros z; cbn [le_encode le_decode].
  - rewrite Z.mod_1_r. reflexivity.
  - rewrite IH.
    replace (8 * Z.of_nat (S n)) with (8 + 8 * Z.of_nat n) by lia.
    rewrite Z.pow_add_r by lia.
    rewrite Z.rem_mul_r by lia. reflexivity.
Qed.

(** A byte string is the encoding of the integer it decodes to. *)
Lemma le_encode_decode (bs : list Z) :
  Forall is_byte bs -> le_encode (length bs) (le_decode bs) = bs.
Proof.
  induction 1 as [| b bs Hb _ IH]; cbn [length le_encode le_decode].
  - reflexivity.
  - unfold is_byte in Hb. f_equal.
    + rewrite (Z.mul_comm (2 ^ 8)), Z.mod_add by lia.
      apply Z.mod_small, Hb.
    + rewrite (Z.mul_comm (2 ^ 8)), Z.div_add by lia.
      rewrite (Z.div_small b) by exact Hb. exact IH.
Qed.

Lemma le_decode_range (bs : list Z) :
  Forall is_byte bs -> 0 <= le_decode bs < 2 ^ (8 * Z.of_nat (length bs)).
Proof.
  induction 1 as [| b bs Hb _ IH]; cbn [length le_decode].
  - cbn. lia.
  - unfold is_byte in Hb.
    replace (8 * Z.of_nat (S (length bs)))
      with (8 + 8 * Z.of_nat (length bs)) by lia.
    rewrite Z.pow_add_r by lia. nia.
Qed.

(** ** Packing limbs into bytes *)

Lemma and_shifted_ones (a k m : Z) :
  0 <= k -> 0 <= m ->
  Z.land (a * 2 ^ k) (Z.ones m * 2 ^ k) = (a mod 2 ^ m) * 2 ^ k.
Proof.
  intros Hk Hm.
  rewrite <- !Z.shiftl_mul_pow2 by exact Hk.
  rewrite <- Z.shiftl_land, Z.land_ones by exact Hm. reflexivity.
Qed.

(** The byte on a limb boundary: the top [k] bits of one limb, xor-ed
    with the low [8 - k] bits of the next, shifted into place. *)
Lemma seam_byte (lo hi k : Z) :
  0 <= k <= 8 -> 0 <= lo < 2 ^ k -> 0 <= hi < 2 ^ 51 ->
  Z.lxor (byte lo) (byte (U64.and (U64.shl hi k) (Z.ones (8 - k) * 2 ^ k))) =
  lo + (hi mod 2 ^ (8 - k)) * 2 ^ k.
Proof.
  intros Hk Hlo Hhi.
  assert (Hp : 0 < 2 ^ k <= 2 ^ 8)
    by (split; [apply Z.pow_pos_nonneg | apply Z.pow_le_mono_r]; lia).
  assert (Hs : 0 <= hi * 2 ^ k < 2 ^ 64) by nia.
  rewrite shl_small by lia.
  unfold U64.and. rewrite and_shifted_ones by lia.
  assert (Hm : 0 <= hi mod 2 ^ (8 - k) < 2 ^ (8 - k))
    by (apply Z.mod_pos_bound, Z.pow_pos_nonneg; lia).
  assert (He : 2 ^ (8 - k) * 2 ^ k = 2 ^ 8)
    by (rewrite <- Z.pow_add_r by lia; f_equal; lia).
  unfold byte.
  rewrite (Z.mod_small lo) by lia.
  rewrite (Z.mod_small (_ * 2 ^ k)) by nia.
  apply lxor_disjoint, Hlo.
Qed.

(** One digit of a limb. *)
Lemma peel (z a w b : Z) :
  0 <= a -> 0 < w -> b = a + w ->
  z / 2 ^ a = (z / 2 ^ a) mod 2 ^ w + 2 ^ w * (z / 2 ^ b) /\
  0 <= (z / 2 ^ a) mod 2 ^ w < 2 ^ w.
Proof.
  intros Ha Hw ->.
  assert (Hp : 0 < 2 ^ w) by (apply Z.pow_pos_nonneg; lia).
  assert (Hq : 0 < 2 ^ a) by (apply Z.pow_pos_nonneg; lia).
  split; [| apply Z.mod_pos_bound, Hp].
  rewrite Z.pow_add_r, <- Z.div_div by lia.
  rewrite Z.add_comm. apply Z.div_mod. lia.
Qed.

Lemma peel0 (z w : Z) :
  0 < w ->
  z = z mod 2 ^ w + 2 ^ w * (z / 2 ^ w) /\ 0 <= z mod 2 ^ w < 2 ^ w.
Proof.
  intros Hw.
  assert (Hp : 0 < 2 ^ w) by (apply Z.pow_pos_nonneg; lia).
  split; [| apply Z.mod_pos_bound, Hp].
  rewrite Z.add_comm. apply Z.div_mod. lia.
Qed.

(** Records the digit equation of every byte-wide digit in the goal. *)
Ltac peel_digits :=
  repeat match goal with
         | |- context [(?z / 2 ^ ?a) mod 2 ^ ?w] =>
             lazymatch goal with
             | H : z / 2 ^ a = _ /\ _ |- _ => fail
             | _ => idtac
             end;
             let b := eval compute in (a + w) in
             pose proof (peel z a w b ltac:(lia) ltac:(lia) eq_refl)
         end.

Lemma top_range (z a b : Z) :
  0 <= z < 2 ^ 51 -> 0 <= a -> 0 <= b -> a + b = 51 ->
  0 <= z / 2 ^ a < 2 ^ b.
Proof.
  intros Hz Ha Hb Hab. split.
  - apply Z.div_pos; [lia | apply Z.pow_pos_nonneg; lia].
  - apply Z.div_lt_upper_bound; [apply Z.pow_pos_nonneg; lia |].
    rewrite <- Z.pow_add_r, Hab by lia. lia.
Qed.

Lemma pack_spec (t : FieldElement) :
  fe_below 51 t ->
  Forall is_byte (pack t) /\ le_decode (pack t) = feval t.
Proof.
  destruct t as [t0 t1 t2 t3 t4].
  unfold fe_below. cbn [l0 l1 l2 l3 l4].
  intros (H0 & H1 & H2 & H3 & H4).
  unfold pack. cbv zeta. cbn [l0 l1 l2 l3 l4].
  change 0xf8 with (Z.ones (8 - 3) * 2 ^ 3).
  change 0xc0 with (Z.ones (8 - 6) * 2 ^ 6).
  change 0xfe with (Z.ones (8 - 1) * 2 ^ 1).
  change 0xf0 with (Z.ones (8 - 4) * 2 ^ 4).
  rewrite !and_ff, !shr_div by lia.
  pose proof (top_range t0 48 3 H0 ltac:(lia) ltac:(lia) eq_refl) as T0.
  pose proof (top_range t1 45 6 H1 ltac:(lia) ltac:(lia) eq_refl) as T1.
  pose proof (top_range t2 50 1 H2 ltac:(lia) ltac:(lia) eq_refl) as T2.
  pose proof (top_range t3 47 4 H3 ltac:(lia) ltac:(lia) eq_refl) as T3.
  pose proof (top_range t4 44 7 H4 ltac:(lia) ltac:(lia) eq_refl) as T4.
  rewrite (seam_byte (t0 / 2 ^ 48) t1 3), (seam_byte (t1 / 2 ^ 45) t2 6),
    (seam_byte (t2 / 2 ^ 50) t3 1), (seam_byte (t3 / 2 ^ 47) t4 4) by lia.
  unfold byte. rewrite !Z.mod_mod by lia.
  rewrite (Z.mod_small (t4 / 2 ^ 44)) by lia.
  change (8 - 3) with 5. change (8 - 6) with 2. change (8 - 1) with 7.
  change (8 - 4) with 4.
  peel_digits.
  pose proof (peel0 t0 8 ltac:(lia)). pose proof (peel0 t1 5 ltac:(lia)).
  pose proof (peel0 t2 2 ltac:(lia)). pose proof (peel0 t3 7 ltac:(lia)).
  pose proof (peel0 t4 4 ltac:(lia)).
  split.
  - repeat constructor; unfold is_byte; lia.
  - cbn [le_decode]. unfold feval. cbn [l0 l1 l2 l3 l4]. lia.
Qed.

(** ** Unpacking bytes into limbs *)

Lemma land_low (b k m : Z) :
  m = Z.ones k -> 0 <= k -> Z.land b m = b mod 2 ^ k.
Proof. intros -> Hk. apply Z.land_ones, Hk. Qed.

(** Turns the innermost disjoint [or] into a sum. *)
Ltac lor_sums :=
  repeat match goal with
         | |- context [Z.lor ?a (?b * 2 ^ ?n)] =>
             rewrite (lor_disjoint a b n) by lia
         end.

Lemma FeFromBytes_spec (x : list Z) :
  buffer32 x ->
  fe_below 51 (FeFromBytes x) /\
  feval (FeFromBytes x) = le_decode x mod 2 ^ 255.
Proof.
  intros [Hlen Hb].
  do 32 (destruct x as [| ? x]; [discriminate Hlen |]).
  destruct x as [| ? x]; [clear Hlen | discriminate Hlen].
  repeat match type of Hb with
         | Forall _ (_ :: _) =>
             let H := fresh "Hbyte" in
             apply Forall_cons_iff in Hb; destruct Hb as [H Hb];
             unfold is_byte in H
         end.
  clear Hb.
  unfold FeFromBytes, at_. cbv zeta. cbn [nth].
  rewrite (land_low _ 3 7), (land_low _ 6 63), (land_low _ 1 1),
    (land_low _ 4 15), (land_low _ 7 127) by (reflexivity || lia).
  rewrite !shr_div by lia.
  repeat match goal with
         | |- context [?b mod 2 ^ ?k] =>
             is_var b;
             lazymatch goal with
             | H : b = _ /\ _ |- _ => fail
             | _ => pose proof (peel0 b k ltac:(lia))
             end
         end.
  rewrite !shl_small by lia.
  unfold U64.or. lor_sums.
  split.
  - unfold fe_below. cbn [l0 l1 l2 l3 l4]. lia.
  - unfold feval. cbn [l0 l1 l2 l3 l4 le_decode].
    match goal with
    | H : ?b = ?b mod 2 ^ 7 + _ /\ _ |- _ =>
        apply Z.mod_unique with (q := b / 2 ^ 7)
    end.
    + left. lia.
    + lia.
Qed.

Lemma land_127_flip (b : Z) : Z.land (Z.lxor b 0x80) 127 = Z.land b 127.
Proof.
  apply Z.bits_inj'. intros i Hi.
  rewrite !Z.land_spec, Z.lxor_spec.
  change 127 with (Z.ones 7). change 0x80 with (2 ^ 7).
  destruct (Z.lt_ge_cases i 7) as [Hlt | Hge].
  - rewrite Z.pow2_bits_false by lia. rewrite xorb_false_r. reflexivity.
  - rewrite Z.ones_spec_high by lia. rewrite !andb_false_r. reflexivity.
Qed.

(** Bit 7 of byte 31 never reaches the limbs. *)
Lemma FeFromBytes_top_bit (x : list Z) :
  length x = 32%nat ->
  FeFromBytes (upd 31 (Z.lxor (at_ x 31) 0x80) x) = FeFromBytes x.
Proof.
  intros Hlen.
  do 32 (destruct x as [| ? x]; [discriminate Hlen |]).
  destruct x as [| ? x]; [clear Hlen | discriminate Hlen].
  unfold FeFromBytes, at_. cbn [upd nth].
  rewrite land_127_flip. reflexivity.
Qed.

(** ** [FeToBytes] on the memory *)

Lemma keeps_seq {A : Type} (obs : mem -> A) (s1 s2 : stmt) :
  keeps obs s1 -> keeps obs s2 -> keeps obs (s1 ;; s2).
Proof.
  intros H1 H2 m. unfold seq. rewrite H2. apply H1.
Qed.

Lemma fupd_same {A : Type} (f : loc -> A) (p : loc) (a : A) :
  fupd f p a p = a.
Proof. unfold fupd. rewrite Nat.eqb_refl. reflexivity. Qed.

Lemma fupd_other {A : Type} (f : loc -> A) (p q : loc) (a : A) :
  q <> p -> fupd f p a q = f q.
Proof.
  intros Hne. unfold fupd.
  destruct (Nat.eqb_spec q p) as [-> | _]; [contradiction | reflexivity].
Qed.

Section Frame.

Variable q : loc.

Lemma frame_set_fe (p : loc) (i : nat) (e : mem -> Z) :
  q <> p -> keeps (fe_at q) (set_fe p i e).
Proof.
  intros Hne m. unfold fe_at, set_fe, st. cbn [fes]. apply fupd_other, Hne.
Qed.

Lemma frame_set_byte (r : loc) (i : nat) (e : mem -> Z) :
  keeps (fe_at q) (set_byte r i e).
Proof. intros m. reflexivity. Qed.

Lemma frame_copy_fe (t v : loc) : q <> t -> keeps (fe_at q) (copy_fe t v).
Proof.
  intros Hne m. unfold fe_at, copy_fe. cbn [fes]. apply fupd_other, Hne.
Qed.

Lemma frame_leave_fe : keeps (fe_at q) leave_fe.
Proof. intros m. reflexivity. Qed.

Lemma frame_feReduce_m (t v : loc) :
  q <> t -> keeps (fe_at q) (feReduce_m t v).
Proof.
  intros Hne. unfold feReduce_m.
  repeat (apply keeps_seq;
          [first [apply frame_copy_fe | apply frame_set_fe]; exact Hne |]).
  apply frame_set_fe, Hne.
Qed.

Lemma frame_pack_m (r t : loc) : keeps (fe_at q) (pack_m r t).
Proof.
  unfold pack_m.
  repeat (apply keeps_seq; [apply frame_set_byte |]).
  apply frame_set_byte.
Qed.

End Frame.

(** Objects in use are not written by [FeToBytes]. *)
Lemma FeToBytes_m_frame (r v q : loc) (m : mem) :
  (q < brk m)%nat -> fes (FeToBytes_m r v m) q = fes m q.
Proof.
  intros Hq. unfold FeToBytes_m. cbv zeta.
  assert (Hne : q <> brk m) by lia.
  change (fe_at q ((feReduce_m (brk m) v ;; pack_m r (brk m) ;; leave_fe)
                     (enter_fe m)) = fes m q).
  rewrite (keeps_seq (fe_at q) (feReduce_m (brk m) v)
             (pack_m r (brk m) ;; leave_fe)).
  - unfold fe_at, enter_fe. cbn [fes]. apply fupd_other, Hne.
  - apply frame_feReduce_m, Hne.
  - apply keeps_seq; [apply frame_pack_m | apply frame_leave_fe].
Qed.

(** ** The memory procedures compute the pure functions *)

Lemma bufs_set_fe (p : loc) (i : nat) (e : mem -> Z) :
  keeps bufs (set_fe p i e).
Proof. intros m. reflexivity. Qed.

Lemma bufs_feReduce_m (t v : loc) : keeps bufs (feReduce_m t v).
Proof.
  unfold feReduce_m.
  apply keeps_seq; [intros m; reflexivity |].
  repeat (apply keeps_seq; [apply bufs_set_fe |]).
  apply bufs_set_fe.
Qed.

Lemma run_set_fe (m : mem) (t : loc) (i : nat) (e : mem -> Z)
  (T : FieldElement) :
  fes m t = T -> fes (set_fe t i e m) t = set_limb T i (e m).
Proof.
  intros H. unfold set_fe, st. cbn [fes]. rewrite fupd_same, H. reflexivity.
Qed.

Lemma run_set_byte (m : mem) (r t : loc) (i : nat) (e : mem -> Z)
  (B : list Z) (T : FieldElement) :
  bufs m r = B -> fes m t = T ->
  bufs (set_byte r i e m) r = upd i (e m) B /\ fes (set_byte r i e m) t = T.
Proof.
  intros HB HT. unfold set_byte, stb. cbn [fes bufs].
  rewrite fupd_same, HB. split; [reflexivity | exact HT].
Qed.

Lemma seq_run (s1 s2 : stmt) (m : mem) : (s1 ;; s2) m = s2 (s1 m).
Proof. reflexivity. Qed.

(** Runs the next limb store, updating the known content of [t]. *)
Ltac step_fe :=
  rewrite seq_run;
  lazymatch goal with
  | H : fes ?m ?t = ?T |- context [set_fe ?t ?i ?e ?m] =>
      let m' := fresh "m" in
      let H' := fresh "H" in
      pose proof (run_set_fe m t i e T H) as H';
      set (m' := set_fe t i e m) in *;
      cbv beta in H'; unfold ld in H'; rewrite H in H';
      cbn [limb set_limb l0 l1 l2 l3 l4] in H';
      clearbody m'; clear H; try clear m
  end.

Lemma feReduce_m_run (t v : loc) (m : mem) :
  fes (feReduce_m t v m) t = feReduce (fes m v).
Proof.
  unfold feReduce_m.
  rewrite seq_run.
  assert (H : fes (copy_fe t v m) t = fes m v)
    by (unfold copy_fe; cbn [fes]; apply fupd_same).
  destruct (fes m v) as [v0 v1 v2 v3 v4].
  set (m0 := copy_fe t v m) in *. clearbody m0. clear m.
  do 19 step_fe.
  rewrite (run_set_fe _ _ _ _ _ H0). cbv beta. unfold ld. rewrite H0.
  reflexivity.
Qed.

(** Runs the next byte store, updating the known content of [r]. *)
Ltac step_byte :=
  rewrite seq_run;
  lazymatch goal with
  | HB : bufs ?m ?r = ?B, HT : fes ?m ?t = ?T
    |- context [set_byte ?r ?i ?e ?m] =>
      let m' := fresh "m" in
      let HB' := fresh "HB" in
      let HT' := fresh "HT" in
      destruct (run_set_byte m r t i e B T HB HT) as [HB' HT'];
      set (m' := set_byte r i e m) in *;
      cbv beta in HB'; unfold ld, ldb in HB'; rewrite ?HB, ?HT in HB';
      cbn [limb l0 l1 l2 l3 l4 upd at_ nth] in HB';
      clearbody m'; clear HB HT; try clear m
  end.

Lemma pack_m_run (r t : loc) (m : mem) :
  length (bufs m r) = 32%nat ->
  bufs (pack_m r t m) r = pack (fes m t).
Proof.
  intros Hlen.
  assert (HT : fes m t = fes m t) by reflexivity.
  assert (HB : bufs m r = bufs m r) by reflexivity.
  revert HT HB Hlen.
  generalize (fes m t) at 2 3. generalize (bufs m r) at 2 3.
  intros B [t0 t1 t2 t3 t4] HT HB Hlen.
  do 32 (destruct B as [| ? B]; [discriminate Hlen |]).
  destruct B as [| ? B]; [clear Hlen | discriminate Hlen].
  unfold pack_m.
  do 35 step_byte.
  lazymatch goal with
  | |- bufs (set_byte ?r ?i ?e ?m) ?r = _ =>
      destruct (run_set_byte m r t i e _ _ HB0 HT0) as [HB1 _]
  end.
  rewrite HB1. cbv beta. unfold ld. rewrite HT0. reflexivity.
Qed.

Lemma bufs_leave_fe (m : mem) : bufs (leave_fe m) = bufs m.
Proof. reflexivity. Qed.

Lemma FeToBytes_m_unfold (r v : loc) (m : mem) :
  FeToBytes_m r v m =
  leave_fe (pack_m r (brk m) (feReduce_m (brk m) v (enter_fe m))).
Proof. reflexivity. Qed.

Lemma FeToBytes_m_run (r v : loc) (m : mem) :
  (v < brk m)%nat -> length (bufs m r) = 32%nat ->
  bufs (FeToBytes_m r v m) r = FeToBytes (fes m v).
Proof.
  intros Hv Hlen. rewrite FeToBytes_m_unfold.
  set (m1 := enter_fe m).
  assert (H1 : fes m1 v = fes m v).
  { unfold m1, enter_fe. cbn [fes]. apply fupd_other. lia. }
  assert (L1 : length (bufs m1 r) = 32%nat) by exact Hlen.
  clearbody m1.
  set (m2 := feReduce_m (brk m) v m1).
  assert (H2 : fes m2 (brk m) = feReduce (fes m v)).
  { unfold m2. rewrite <- H1. apply feReduce_m_run. }
  assert (L2 : length (bufs m2 r) = 32%nat).
  { unfold m2. rewrite (bufs_feReduce_m (brk m) v m1). exact L1. }
  clearbody m2.
  rewrite (bufs_leave_fe (pack_m r (brk m) m2)).
  rewrite (pack_m_run r (brk m) m2 L2), H2. reflexivity.
Qed.

(** Called in place, [feReduce] does overwrite its argument: the memory
    tells the temporary and the input apart. *)
Lemma feReduce_m_in_place :
  fes (feReduce_m 0%nat 0%nat ex_mem) 0%nat <> fes ex_mem 0%nat.
Proof. vm_compute. discriminate. Qed.

Lemma FeToBytes_m_example :
  bufs (FeToBytes_m 0%nat 0%nat ex_mem) 0%nat = FeToBytes ex_a.
Proof.
  apply (FeToBytes_m_run 0%nat 0%nat ex_mem); [cbn; lia | reflexivity].
Qed.

(** ** Bounds between the forms *)

Lemma tight_below_52 (t : FieldElement) : tight t -> fe_below 52 t.
Proof. unfold tight, fe_below. lia. Qed.

Lemma below_52_loose (t : FieldElement) : fe_below 52 t -> loose t.
Proof. unfold loose, fe_below. lia. Qed.

Lemma below_51_loose (t : FieldElement) : fe_below 51 t -> loose t.
Proof. unfold loose, fe_below. lia. Qed.

(** ** [FeCMove] *)

Lemma lxor_ok (a b : Z) : U64.ok a -> U64.ok b -> U64.ok (Z.lxor a b).
Proof.
  unfold U64.ok, U64.wB. intros Ha Hb.
  assert (Hn : 0 <= Z.lxor a b) by (apply Z.lxor_nonneg; lia).
  split; [exact Hn |].
  destruct (Z.eq_dec (Z.lxor a b) 0) as [-> | Hz]; [lia |].
  apply Z.log2_lt_pow2; [lia |].
  apply Z.le_lt_trans with (Z.max (Z.log2 a) (Z.log2 b)).
  - apply Z.log2_lxor; lia.
  - destruct (Z.eq_dec a 0) as [-> | Ha0], (Z.eq_dec b 0) as [-> | Hb0];
      cbn [Z.log2]; try lia.
    + apply Z.max_lub_lt; [lia | apply Z.log2_lt_pow2; lia].
    + apply Z.max_lub_lt; [apply Z.log2_lt_pow2; lia | lia].
    + apply Z.max_lub_lt; apply Z.log2_lt_pow2; lia.
Qed.

Lemma select_keep (f g : Z) :
  U64.xor f (U64.and (U64.mul (2 ^ 64 - 1) (uint64_of_int32 0))
                     (U64.xor f g)) = f.
Proof.
  change (U64.mul (2 ^ 64 - 1) (uint64_of_int32 0)) with 0.
  unfold U64.xor, U64.and. rewrite Z.land_0_l. apply Z.lxor_0_r.
Qed.

Lemma select_move (f g : Z) :
  U64.ok f -> U64.ok g ->
  U64.xor f (U64.and (U64.mul (2 ^ 64 - 1) (uint64_of_int32 1))
                     (U64.xor f g)) = g.
Proof.
  intros Hf Hg.
  change (U64.mul (2 ^ 64 - 1) (uint64_of_int32 1)) with (Z.ones 64).
  unfold U64.xor, U64.and.
  rewrite Z.land_comm, Z.land_ones by lia.
  rewrite Z.mod_small by (apply lxor_ok; assumption).
  rewrite <- Z.lxor_assoc, Z.lxor_nilpotent. apply Z.lxor_0_l.
Qed.

(** * The contracts *)

Lemma ex_a_loose : loose ex_a.
Proof. unfold loose, fe_below, ex_a. cbn [l0 l1 l2 l3 l4]. lia. Qed.

Lemma ex_b_loose : loose ex_b.
Proof. unfold loose, fe_below, ex_b. cbn [l0 l1 l2 l3 l4]. lia. Qed.

Lemma ex_wide_ok : fe_ok ex_wide /\ carry_room ex_wide.
Proof.
  unfold fe_ok, carry_room, U64.ok, U64.wB, ex_wide.
  cbn [l0 l1 l2 l3 l4]. lia.
Qed.

Lemma ex_buf_buffer : buffer32 ex_buf.
Proof.
  split; [reflexivity |].
  unfold ex_buf. repeat constructor; unfold is_byte; lia.
Qed.

(** C1.  For field elements [a], [b] with every limb below [2^54], the
    value of [FeMul a b] is congruent to [value a * value b] modulo
    [2^255 - 19]. *)
Theorem FeMul_correct (a b : FieldElement) :
  loose a -> loose b ->
  feval (FeMul a b) mod p25519 = (feval a * feval b) mod p25519.
Proof.
  intros Ha Hb.
  destruct (FeMul_spec a b Ha Hb) as [_ [k Hk]].
  apply mod_p_shift with (k := k). exact Hk.
Qed.

Lemma FeMul_correct_witness :
  loose ex_a /\ loose ex_b /\
  feval (FeMul ex_a ex_b) mod p25519 = (feval ex_a * feval ex_b) mod p25519.
Proof.
  split; [exact ex_a_loose | split; [exact ex_b_loose |]].
  apply (FeMul_correct ex_a ex_b ex_a_loose ex_b_loose).
Defined.

(** C2.  For every field element [v] with every limb below [2^54],
    reduced or not, [FeToBytes v] is the 32-byte little-endian encoding
    of [value v mod (2^255 - 19)], the canonical representative. *)
Theorem FeToBytes_canonical (v : FieldElement) :
  loose v ->
  FeToBytes v = le_encode 32 (feval v mod p25519) /\
  0 <= feval v mod p25519 < p25519.
Proof.
  intros Hv. split; [| apply Z.mod_pos_bound; reflexivity].
  destruct (loose_fe_ok v Hv) as [Hok Hroom].
  destruct (feReduce_spec v Hok Hroom) as [[Hlimbs _] Hval].
  destruct (pack_spec (feReduce v) Hlimbs) as [Hbytes Hdec].
  unfold FeToBytes. cbv zeta.
  rewrite <- Hval, <- Hdec.
  symmetry. apply (le_encode_decode (pack (feReduce v)) Hbytes).
Qed.

Lemma FeToBytes_canonical_witness :
  loose ex_a /\
  FeToBytes ex_a = le_encode 32 (feval ex_a mod p25519) /\
  0 <= feval ex_a mod p25519 < p25519.
Proof.
  split; [exact ex_a_loose |].
  apply (FeToBytes_canonical ex_a ex_a_loose).
Defined.

(** C3.  For every integer [n] with [0 <= n < 2^255 - 19], decoding the
    32-byte little-endian encoding of [n] with [FeFromBytes] and encoding
    the result with [FeToBytes] gives that encoding back. *)
Theorem roundtrip_canonical (n : Z) :
  0 <= n < p25519 ->
  FeToBytes (FeFromBytes (le_encode 32 n)) = le_encode 32 n.
Proof.
  intros Hn.
  assert (Hbuf : buffer32 (le_encode 32 n))
    by (split; [apply le_encode_length | apply le_encode_bytes]).
  destruct (FeFromBytes_spec (le_encode 32 n) Hbuf) as [Hlimbs Hval].
  rewrite le_decode_encode in Hval.
  assert (Hv : feval (FeFromBytes (le_encode 32 n)) = n).
  { rewrite Hval. unfold p25519 in Hn.
    rewrite (Z.mod_small n) by (cbn; lia). apply Z.mod_small. lia. }
  assert (Hred :
    reduced (feReduce (FeFromBytes (le_encode 32 n))) /\
    feval (feReduce (FeFromBytes (le_encode 32 n))) =
    feval (FeFromBytes (le_encode 32 n)) mod p25519).
  { apply feReduce_spec; apply loose_fe_ok, below_51_loose, Hlimbs. }
  destruct Hred as [[Hl _] Hr].
  destruct (pack_spec _ Hl) as [Hbytes Hdec].
  unfold FeToBytes. cbv zeta.
  rewrite <- (le_encode_decode _ Hbytes), Hdec, Hr, Hv.
  rewrite (Z.mod_small n) by exact Hn. reflexivity.
Qed.

Lemma roundtrip_canonical_witness :
  0 <= p25519 - 1 < p25519 /\
  FeToBytes (FeFromBytes (le_encode 32 (p25519 - 1))) =
  le_encode 32 (p25519 - 1).
Proof.
  assert (Hn : 0 <= p25519 - 1 < p25519) by (unfold p25519; lia).
  split; [exact Hn |].
  apply (roundtrip_canonical (p25519 - 1) Hn).
Defined.

(** C4 (as stated, refuted).  With [a = 0] and [b = (2^51, 2^64 - 1, 0,
    0, 0)], both within the stated domain, the carry [t[1] += t[0] >> 51]
    wraps to 0 and the value of [FeSub a b] is not congruent to
    [value a - value b]. *)
Lemma FeSub_wrap_counterexample :
  loose FeZero /\ fe_ok ex_wrap /\
  feval (FeSub FeZero ex_wrap) mod p25519 <>
  (feval FeZero - feval ex_wrap) mod p25519.
Proof.
  split; [| split].
  - unfold loose, fe_below, FeZero. cbn [l0 l1 l2 l3 l4]. lia.
  - unfold fe_ok, U64.ok, U64.wB, ex_wrap. cbn [l0 l1 l2 l3 l4]. lia.
  - vm_compute. discriminate.
Qed.

(** C4 (amended).  For [a] with every limb below [2^54] and [b] with
    arbitrary 64-bit limbs, no subtraction of [FeSub a b] wraps below
    zero: each [a[i] + K_i] is at least the reduced limb [t[i]].  When
    moreover limbs 1 to 4 of [b] are at most [2^64 - 2^13], so that the
    carries into them do not wrap, the value of [FeSub a b] is congruent
    to [value a - value b] modulo [2^255 - 19]. *)
Theorem FeSub_correct (a b : FieldElement) :
  loose a -> fe_ok b ->
  no_underflow a b /\
  (carry_room b ->
   feval (FeSub a b) mod p25519 = (feval a - feval b) mod p25519).
Proof.
  intros Ha Hb. split; [apply FeSub_no_underflow, Ha |].
  intros Hr. destruct (FeSub_value a b Ha Hb Hr) as [k Hk].
  apply mod_p_shift with (k := k). exact Hk.
Qed.

Lemma FeSub_correct_witness :
  loose ex_a /\ fe_ok ex_wide /\ carry_room ex_wide /\
  no_underflow ex_a ex_wide /\
  feval (FeSub ex_a ex_wide) mod p25519 =
  (feval ex_a - feval ex_wide) mod p25519.
Proof.
  destruct ex_wide_ok as [Hok Hroom].
  destruct (FeSub_correct ex_a ex_wide ex_a_loose Hok) as [Hn Hv].
  split; [exact ex_a_loose |].
  split; [exact Hok |].
  split; [exact Hroom |].
  split; [exact Hn | exact (Hv Hroom)].
Defined.

(** C5.  For every 32-byte buffer, the value of [FeFromBytes x] is the
    integer the buffer encodes little-endian, reduced to its low 255
    bits; flipping bit 255 (the top bit of byte 31) does not change the
    result.  The function is total: no buffer is rejected, also when the
    encoded value is at least [2^255 - 19]. *)
Theorem FeFromBytes_low255 (x : list Z) :
  buffer32 x ->
  feval (FeFromBytes x) = le_decode x mod 2 ^ 255 /\
  FeFromBytes (upd 31 (Z.lxor (at_ x 31) 0x80) x) = FeFromBytes x.
Proof.
  intros Hx. split.
  - apply (FeFromBytes_spec x Hx).
  - apply FeFromBytes_top_bit, Hx.
Qed.

Lemma FeFromBytes_low255_witness :
  buffer32 ex_buf /\
  p25519 <= le_decode ex_buf mod 2 ^ 255 /\
  feval (FeFromBytes ex_buf) = le_decode ex_buf mod 2 ^ 255 /\
  FeFromBytes (upd 31 (Z.lxor (at_ ex_buf 31) 0x80) ex_buf) =
  FeFromBytes ex_buf.
Proof.
  split; [exact ex_buf_buffer |].
  split; [vm_compute; discriminate |].
  apply (FeFromBytes_low255 ex_buf ex_buf_buffer).
Defined.

(** C6.  The 32-byte encoding of [2^255 - 1] (byte 31 = 0x7f, the others
    0xff) decodes and re-encodes to the encoding of 18 (byte 0 = 0x12,
    the others 0x00). *)
Theorem roundtrip_all_ones :
  le_encode 32 (2 ^ 255 - 1) = repeat 0xff 31 ++ [0x7f] /\
  FeToBytes (FeFromBytes (repeat 0xff 31 ++ [0x7f])) = 0x12 :: repeat 0 31 /\
  le_encode 32 18 = 0x12 :: repeat 0 31 /\
  (2 ^ 255 - 1) mod p25519 = 18.
Proof. repeat split; vm_compute; reflexivity. Qed.

(** C7.  For every field element [a] with every limb below [2^54], the
    value of [FeSquare a] is congruent modulo [2^255 - 19] to the value
    of [FeMul a a]. *)
Theorem FeSquare_agrees (a : FieldElement) :
  loose a ->
  feval (FeSquare a) mod p25519 = feval (FeMul a a) mod p25519.
Proof.
  intros Ha. rewrite (FeSquare_FeMul a Ha). reflexivity.
Qed.

Lemma FeSquare_agrees_witness :
  loose ex_a /\
  feval (FeSquare ex_a) mod p25519 = feval (FeMul ex_a ex_a) mod p25519.
Proof.
  split; [exact ex_a_loose |].
  apply (FeSquare_agrees ex_a ex_a_loose).
Defined.

(** C8.  For field elements [f], [g] with arbitrary 64-bit limbs,
    [FeCMove f g 0] leaves every limb of [f] as it was and
    [FeCMove f g 1] makes every limb of [f] the limb of [g]. *)
Theorem FeCMove_select (f g : FieldElement) :
  fe_ok f -> fe_ok g ->
  FeCMove f g 0 = f /\ FeCMove f g 1 = g.
Proof.
  destruct f as [f0 f1 f2 f3 f4], g as [g0 g1 g2 g3 g4].
  unfold fe_ok. cbn [l0 l1 l2 l3 l4].
  intros (Hf0 & Hf1 & Hf2 & Hf3 & Hf4) (Hg0 & Hg1 & Hg2 & Hg3 & Hg4).
  unfold FeCMove. cbv zeta. cbn [l0 l1 l2 l3 l4].
  split.
  - rewrite !select_keep. reflexivity.
  - rewrite !select_move by assumption. reflexivity.
Qed.

Lemma FeCMove_select_witness :
  fe_ok ex_wide /\ fe_ok ex_wrap /\
  FeCMove ex_wide ex_wrap 0 = ex_wide /\ FeCMove ex_wide ex_wrap 1 = ex_wrap.
Proof.
  assert (Hg : fe_ok ex_wrap).
  { unfold fe_ok, U64.ok, U64.wB, ex_wrap. cbn [l0 l1 l2 l3 l4]. lia. }
  split; [exact (proj1 ex_wide_ok) |].
  split; [exact Hg |].
  apply (FeCMove_select ex_wide ex_wrap (proj1 ex_wide_ok) Hg).
Defined.

(** C9.  For inputs with every limb below [2^54], every limb of the
    output of [FeMul] and of [FeSquare] is below [2^51] except for a
    residue in limb 0 (below [2^51 + 19 * 2^13]); in particular every
    output limb is below [2^52], and the output is again within the
    54-bit bound the operations require of their inputs. *)
Theorem FeMul_FeSquare_bounded (a b : FieldElement) :
  loose a -> loose b ->
  (tight (FeMul a b) /\ fe_below 52 (FeMul a b) /\ loose (FeMul a b)) /\
  (tight (FeSquare a) /\ fe_below 52 (FeSquare a) /\ loose (FeSquare a)).
Proof.
  intros Ha Hb.
  assert (Hm : forall x y, loose x -> loose y ->
                 tight (FeMul x y) /\ fe_below 52 (FeMul x y) /\
                 loose (FeMul x y)).
  { intros x y Hx Hy. destruct (FeMul_spec x y Hx Hy) as [Ht _].
    split; [exact Ht |].
    split; [| apply below_52_loose]; apply tight_below_52, Ht. }
  split; [apply Hm; assumption |].
  rewrite (FeSquare_FeMul a Ha). apply Hm; assumption.
Qed.

Lemma FeMul_FeSquare_bounded_witness :
  loose ex_a /\ loose ex_b /\
  (tight (FeMul ex_a ex_b) /\ fe_below 52 (FeMul ex_a ex_b) /\
   loose (FeMul ex_a ex_b)) /\
  (tight (FeSquare ex_a) /\ fe_below 52 (FeSquare ex_a) /\
   loose (FeSquare ex_a)).
Proof.
  split; [exact ex_a_loose |].
  split; [exact ex_b_loose |].
  apply (FeMul_FeSquare_bounded ex_a ex_b ex_a_loose ex_b_loose).
Defined.

(** C10.  [FeToBytes] does not modify its input: for every memory and
    every input object [v] in use, the five limbs at [v] after the call
    are the limbs before it; the reduction works on the local temporary. *)
Theorem FeToBytes_m_input_unchanged (r v : loc) (m : mem) :
  (v < brk m)%nat ->
  fes (FeToBytes_m r v m) v = fes m v.
Proof.
  intros Hv. apply FeToBytes_m_frame, Hv.
Qed.

Lemma FeToBytes_m_input_unchanged_witness :
  (0 < brk ex_mem)%nat /\
  fes (FeToBytes_m 0%nat 0%nat ex_mem) 0%nat = fes ex_mem 0%nat.
Proof.
  assert (Hv : (0 < brk ex_mem)%nat) by (cbn; lia).
  split; [exact Hv |].
  apply (FeToBytes_m_input_unchanged 0%nat 0%nat ex_mem Hv).
Defined.

(** * Further properties of the kernel and the codec *)

(** ** Uniqueness of representations *)

(** Limbs below [2^51] are determined by the value. *)
Lemma limbs_unique (t u : FieldElement) :
  fe_below 51 t -> fe_below 51 u -> feval t = feval u -> t = u.
Proof.
  destruct t as [t0 t1 t2 t3 t4], u as [u0 u1 u2 u3 u4].
  unfold fe_below, feval. cbn [l0 l1 l2 l3 l4].
  intros (H0 & H1 & H2 & H3 & H4) (G0 & G1 & G2 & G3 & G4) E.
  assert (E4 : t4 = u4) by lia. subst u4.
  assert (E3 : t3 = u3) by lia. subst u3.
  assert (E2 : t2 = u2) by lia. subst u2.
  assert (E1 : t1 = u1) by lia. subst u1.
  assert (E0 : t0 = u0) by lia. subst u0.
  reflexivity.
Qed.

Lemma le_encode_inj (a b : Z) :
  0 <= a < 2 ^ 256 -> 0 <= b < 2 ^ 256 ->
  le_encode 32 a = le_encode 32 b -> a = b.
Proof.
  intros Ha Hb E. apply (f_equal le_decode) in E.
  rewrite !le_decode_encode in E.
  change (2 ^ (8 * Z.of_nat 32)) with (2 ^ 256) in E.
  rewrite !Z.mod_small in E by assumption. exact E.
Qed.

Lemma p25519_range (z : Z) : 0 <= z mod p25519 < 2 ^ 256.
Proof.
  pose proof (Z.mod_pos_bound z p25519 ltac:(reflexivity)) as H.
  unfold p25519 in *. lia.
Qed.

(** ** [FeAdd], [FeSub], [FeNeg] *)

(** Below [2^63] the limb additions are exact. *)
Lemma FeAdd_no_wrap (k : Z) (a b : FieldElement) :
  0 <= k <= 63 -> fe_below k a -> fe_below k b ->
  feval (FeAdd a b) = feval a + feval b /\ fe_below (k + 1) (FeAdd a b).
Proof.
  destruct a as [a0 a1 a2 a3 a4], b as [b0 b1 b2 b3 b4].
  unfold fe_below, FeAdd, feval. cbn [l0 l1 l2 l3 l4].
  intros Hk (A0 & A1 & A2 & A3 & A4) (B0 & B1 & B2 & B3 & B4).
  assert (Hp : 2 ^ (k + 1) = 2 * 2 ^ k)
    by (rewrite Z.pow_add_r by lia; lia).
  assert (Hq : 2 ^ (k + 1) <= 2 ^ 64)
    by (apply Z.pow_le_mono_r; lia).
  rewrite !add_small by lia. lia.
Qed.

(** X1.  When every limb of [a] and of [b] is below [2^k] with
    [k <= 63], no limb addition of [FeAdd] wraps: the value of the
    output is exactly [value a + value b] and its limbs are below
    [2^(k+1)]. *)
Theorem FeAdd_exact (k : Z) (a b : FieldElement) :
  0 <= k <= 63 -> fe_below k a -> fe_below k b ->
  feval (FeAdd a b) = feval a + feval b /\ fe_below (k + 1) (FeAdd a b).
Proof. exact (FeAdd_no_wrap k a b). Qed.

Lemma FeAdd_exact_witness :
  0 <= 54 <= 63 /\ fe_below 54 ex_a /\ fe_below 54 ex_b /\
  feval (FeAdd ex_a ex_b) = feval ex_a + feval ex_b /\
  fe_below (54 + 1) (FeAdd ex_a ex_b).
Proof.
  assert (Hk : 0 <= 54 <= 63) by lia.
  split; [exact Hk |].
  split; [exact ex_a_loose |].
  split; [exact ex_b_loose |].
  apply (FeAdd_exact 54 ex_a ex_b Hk ex_a_loose ex_b_loose).
Defined.

(** The limbs of [FeSub a b] for loose [a]: the exact differences. *)
Lemma FeSub_limbs (a b : FieldElement) :
  loose a ->
  FeSub a b =
  FE (l0 a + K0 - l0 (FeSub_t b)) (l1 a + K1 - l1 (FeSub_t b))
     (l2 a + K1 - l2 (FeSub_t b)) (l3 a + K1 - l3 (FeSub_t b))
     (l4 a + K1 - l4 (FeSub_t b)).
Proof.
  intros Ha.
  pose proof (FeSub_no_underflow a b Ha) as Hn.
  pose proof (FeSub_t_tight b) as Ht.
  unfold FeSub, no_underflow in *. cbv zeta in *.
  destruct (FeSub_t b) as [t0 t1 t2 t3 t4].
  destruct (FeSub_m a) as [m0 m1 m2 m3 m4].
  destruct a as [a0 a1 a2 a3 a4].
  unfold loose, fe_below, tight, K0, K1, U64.sub in *.
  cbn [l0 l1 l2 l3 l4] in *.
  rewrite !wrap_small by (unfold U64.ok, U64.wB; lia).
  f_equal; lia.
Qed.

(** The size of the differences [a[i] + K_i - t[i]]. *)
Lemma FeSub_range (a b : FieldElement) :
  loose a ->
  fe_below 55 (FeSub a b) /\ (fe_below 53 a -> loose (FeSub a b)).
Proof.
  intros Ha. rewrite (FeSub_limbs a b Ha).
  pose proof (FeSub_t_tight b) as Ht.
  destruct (FeSub_t b) as [t0 t1 t2 t3 t4].
  destruct a as [a0 a1 a2 a3 a4].
  unfold loose, fe_below, tight, K0, K1 in *.
  cbn [l0 l1 l2 l3 l4] in *. lia.
Qed.

(** X2.  For [a] with every limb below [2^54] and any [b], every limb
    of [FeSub a b] is below [2^55]; when the limbs of [a] are below
    [2^53] the output is again within the 54-bit bound. *)
Theorem FeSub_bounded (a b : FieldElement) :
  loose a ->
  fe_below 55 (FeSub a b) /\ (fe_below 53 a -> loose (FeSub a b)).
Proof. exact (FeSub_range a b). Qed.

Lemma FeSub_bounded_witness :
  loose ex_tight /\ fe_below 53 ex_tight /\
  fe_below 55 (FeSub ex_tight ex_wide) /\ loose (FeSub ex_tight ex_wide).
Proof.
  assert (H53 : fe_below 53 ex_tight).
  { unfold fe_below, ex_tight. cbn [l0 l1 l2 l3 l4]. lia. }
  assert (Hl : loose ex_tight).
  { unfold loose, fe_below, ex_tight. cbn [l0 l1 l2 l3 l4]. lia. }
  destruct (FeSub_bounded ex_tight ex_wide Hl) as [H55 Hk].
  split; [exact Hl |].
  split; [exact H53 |].
  split; [exact H55 | exact (Hk H53)].
Defined.

(** [FeNeg] is [FeSub] from the zero element. *)
Lemma FeNeg_spec (a : FieldElement) :
  fe_ok a ->
  fe_below 52 (FeNeg a) /\
  (carry_room a -> feval (FeNeg a) mod p25519 = (- feval a) mod p25519).
Proof.
  intros Ha.
  assert (Hz : loose FeZero)
    by (unfold loose, fe_below, FeZero; cbn [l0 l1 l2 l3 l4]; lia).
  unfold FeNeg. split.
  - rewrite (FeSub_limbs FeZero a Hz).
    pose proof (FeSub_t_tight a) as Ht.
    destruct (FeSub_t a) as [t0 t1 t2 t3 t4].
    unfold fe_below, tight, K0, K1, FeZero in *.
    cbn [l0 l1 l2 l3 l4] in *. lia.
  - intros Hr. destruct (FeSub_value FeZero a Hz Ha Hr) as [k Hk].
    apply mod_p_shift with (k := k). rewrite Hk.
    unfold feval, FeZero. cbn [l0 l1 l2 l3 l4]. lia.
Qed.

(** X3.  For every [a] with 64-bit limbs, the limbs of [FeNeg a] are
    below [2^52]; when limbs 1 to 4 of [a] leave room for the carries
    (as for every loose [a]) the value of [FeNeg a] is congruent to
    [- value a] modulo [2^255 - 19]. *)
Theorem FeNeg_correct (a : FieldElement) :
  fe_ok a ->
  fe_below 52 (FeNeg a) /\
  (carry_room a -> feval (FeNeg a) mod p25519 = (- feval a) mod p25519).
Proof. exact (FeNeg_spec a). Qed.

Lemma FeNeg_correct_witness :
  fe_ok ex_wide /\ carry_room ex_wide /\
  fe_below 52 (FeNeg ex_wide) /\
  feval (FeNeg ex_wide) mod p25519 = (- feval ex_wide) mod p25519.
Proof.
  destruct ex_wide_ok as [Hok Hroom].
  destruct (FeNeg_correct ex_wide Hok) as [Hb Hv].
  split; [exact Hok |].
  split; [exact Hroom |].
  split; [exact Hb | exact (Hv Hroom)].
Defined.

(** X4.  For loose [a], adding [FeNeg a] to [a] gives a field element
    whose value is congruent to 0. *)
Theorem FeAdd_FeNeg_zero (a : FieldElement) :
  loose a -> feval (FeAdd a (FeNeg a)) mod p25519 = 0.
Proof.
  intros Ha.
  destruct (loose_fe_ok a Ha) as [Hok Hroom].
  destruct (FeNeg_spec a Hok) as [Hb Hv].
  assert (Hn : fe_below 54 (FeNeg a)).
  { revert Hb. unfold fe_below. lia. }
  destruct (FeAdd_no_wrap 54 a (FeNeg a) ltac:(lia) Ha Hn) as [Hs _].
  rewrite Hs, <- Z.add_mod_idemp_r, (Hv Hroom), Z.add_mod_idemp_r
    by (unfold p25519; lia).
  replace (feval a + - feval a) with 0 by lia. reflexivity.
Qed.

Lemma FeAdd_FeNeg_zero_witness :
  loose ex_a /\ feval (FeAdd ex_a (FeNeg ex_a)) mod p25519 = 0.
Proof.
  split; [exact ex_a_loose |].
  apply (FeAdd_FeNeg_zero ex_a ex_a_loose).
Defined.

(** X5.  For loose [a] and [b], adding [b] back to [FeSub a b] gives a
    field element whose value is congruent to that of [a]. *)
Theorem FeAdd_FeSub_cancel (a b : FieldElement) :
  loose a -> loose b ->
  feval (FeAdd (FeSub a b) b) mod p25519 = feval a mod p25519.
Proof.
  intros Ha Hb.
  destruct (loose_fe_ok b Hb) as [Hok Hroom].
  destruct (FeSub_value a b Ha Hok Hroom) as [k Hk].
  destruct (FeSub_range a b Ha) as [Hs _].
  assert (Hb' : fe_below 55 b) by (revert Hb; unfold loose, fe_below; lia).
  destruct (FeAdd_no_wrap 55 (FeSub a b) b ltac:(lia) Hs Hb') as [He _].
  apply mod_p_shift with (k := k). rewrite He, Hk. lia.
Qed.

Lemma FeAdd_FeSub_cancel_witness :
  loose ex_a /\ loose ex_b /\
  feval (FeAdd (FeSub ex_a ex_b) ex_b) mod p25519 = feval ex_a mod p25519.
Proof.
  split; [exact ex_a_loose |].
  split; [exact ex_b_loose |].
  apply (FeAdd_FeSub_cancel ex_a ex_b ex_a_loose ex_b_loose).
Defined.

(** ** [mul64] *)

(** X6.  On 64-bit words [mul64] returns two 64-bit words that hold the
    accumulator plus the full product, modulo [2^128]: the carry out of
    the high word is dropped and nothing else is lost. *)
Theorem mul64_mod_2_128 (accLo accHi x y : Z) :
  U64.ok accLo -> U64.ok accHi -> U64.ok x -> U64.ok y ->
  U64.ok (fst (mul64 accLo accHi x y)) /\
  U64.ok (snd (mul64 accLo accHi x y)) /\
  fst (mul64 accLo accHi x y) + 2 ^ 64 * snd (mul64 accLo accHi x y) =
  (accLo + 2 ^ 64 * accHi + x * y) mod 2 ^ 128.
Proof.
  unfold U64.ok, mul64, U64.bits_Mul64, U64.add, U64.wrap, U64.wB.
  intros Hlo Hhi Hx Hy. cbn [fst snd].
  assert (Hxy : 0 <= x * y <= (2 ^ 64 - 1) * (2 ^ 64 - 1)).
  { split; [apply Z.mul_nonneg_nonneg; lia |].
    apply Z.mul_le_mono_nonneg; lia. }
  set (P := x * y) in *.
  assert (HP : P = 2 ^ 64 * (P / 2 ^ 64) + P mod 2 ^ 64)
    by (apply Z.div_mod; lia).
  assert (Hl : 0 <= P mod 2 ^ 64 < 2 ^ 64) by (apply Z.mod_pos_bound; lia).
  assert (Hh : 0 <= P / 2 ^ 64) by (apply Z.div_pos; lia).
  set (h := P / 2 ^ 64) in *. set (l := P mod 2 ^ 64) in *.
  clearbody h l P.
  assert (Hh' : h <= 2 ^ 64 - 2) by lia.
  assert (Hc : exists c, (c = 0 \/ c = 1) /\
            0 <= l + accLo - 2 ^ 64 * c < 2 ^ 64 /\
            (l + accLo) mod 2 ^ 64 = l + accLo - 2 ^ 64 * c /\
            (if (l + accLo) mod 2 ^ 64 <? accLo then (h + 1) mod 2 ^ 64
             else h) = h + c).
  { destruct (Z.lt_ge_cases (l + accLo) (2 ^ 64)) as [Hnc | Hcy].
    - exists 0. rewrite (Z.mod_small (l + accLo)) by lia.
      destruct (Z.ltb_spec (l + accLo) accLo); [lia |].
      split; [left; reflexivity | repeat split; lia].
    - exists 1.
      replace ((l + accLo) mod 2 ^ 64) with (l + accLo - 2 ^ 64)
        by (apply Z.mod_unique with (q := 1); lia).
      destruct (Z.ltb_spec (l + accLo - 2 ^ 64) accLo); [| lia].
      rewrite (Z.mod_small (h + 1)) by lia.
      split; [right; reflexivity | repeat split; lia]. }
  destruct Hc as (c & Hc01 & Hcr & -> & ->).
  assert (Hm : 0 <= (h + c + accHi) mod 2 ^ 64 < 2 ^ 64)
    by (apply Z.mod_pos_bound; lia).
  split; [lia |]. split; [exact Hm |].
  set (q := (h + c + accHi) / 2 ^ 64).
  assert (Hq : h + c + accHi = 2 ^ 64 * q + (h + c + accHi) mod 2 ^ 64)
    by (apply Z.div_mod; lia).
  apply Z.mod_unique with (q := q); [left; lia | lia].
Qed.

Lemma mul64_mod_2_128_witness :
  U64.ok (2 ^ 64 - 1) /\
  fst (mul64 (2 ^ 64 - 1) (2 ^ 64 - 1) (2 ^ 64 - 1) (2 ^ 64 - 1)) +
  2 ^ 64 * snd (mul64 (2 ^ 64 - 1) (2 ^ 64 - 1) (2 ^ 64 - 1) (2 ^ 64 - 1)) =
  ((2 ^ 64 - 1) + 2 ^ 64 * (2 ^ 64 - 1) + (2 ^ 64 - 1) * (2 ^ 64 - 1))
  mod 2 ^ 128.
Proof.
  assert (H : U64.ok (2 ^ 64 - 1)) by (unfold U64.ok, U64.wB; lia).
  split; [exact H |].
  apply (mul64_mod_2_128 _ _ _ _ H H H H).
Defined.

(** ** [FeMul], [FeSquare], [FeSquare2] *)

Lemma holds_inj_eq (r r' : Z * Z) (W W' B B' : Z) :
  holds r W B -> holds r' W' B' -> W = W' -> r = r'.
Proof. intros H H' E. subst W'. exact (holds_inj r r' W B B' H H'). Qed.

(** X7.  On loose inputs [FeMul] is commutative limb for limb. *)
Theorem FeMul_comm (a b : FieldElement) :
  loose a -> loose b -> FeMul a b = FeMul b a.
Proof.
  destruct a as [x0 x1 x2 x3 x4], b as [y0 y1 y2 y3 y4].
  unfold loose, fe_below. cbn [l0 l1 l2 l3 l4].
  intros (Hx0 & Hx1 & Hx2 & Hx3 & Hx4) (Hy0 & Hy1 & Hy2 & Hy3 & Hy4).
  destruct (FeMul_carry x0 x1 x2 x3 x4 Hx0 Hx1 Hx2 Hx3 Hx4
              y0 y1 y2 y3 y4 Hy0 Hy1 Hy2 Hy3 Hy4)
    as (r0 & r1 & r2 & r3 & r4 & E & C0 & C1 & C2 & C3 & C4).
  destruct (FeMul_carry y0 y1 y2 y3 y4 Hy0 Hy1 Hy2 Hy3 Hy4
              x0 x1 x2 x3 x4 Hx0 Hx1 Hx2 Hx3 Hx4)
    as (s0 & s1 & s2 & s3 & s4 & E' & D0 & D1 & D2 & D3 & D4).
  rewrite E, E'.
  rewrite (holds_inj_eq r0 s0 _ _ _ _ C0 D0) by ring.
  rewrite (holds_inj_eq r1 s1 _ _ _ _ C1 D1) by ring.
  rewrite (holds_inj_eq r2 s2 _ _ _ _ C2 D2) by ring.
  rewrite (holds_inj_eq r3 s3 _ _ _ _ C3 D3) by ring.
  rewrite (holds_inj_eq r4 s4 _ _ _ _ C4 D4) by ring.
  reflexivity.
Qed.

Lemma FeMul_comm_witness :
  loose ex_a /\ loose ex_b /\ FeMul ex_a ex_b = FeMul ex_b ex_a.
Proof.
  split; [exact ex_a_loose |].
  split; [exact ex_b_loose |].
  apply (FeMul_comm ex_a ex_b ex_a_loose ex_b_loose).
Defined.

Lemma FeMul_loose (a b : FieldElement) :
  loose a -> loose b -> loose (FeMul a b).
Proof.
  intros Ha Hb. destruct (FeMul_spec a b Ha Hb) as [Ht _].
  apply below_52_loose, tight_below_52, Ht.
Qed.

Lemma FeMul_value (a b : FieldElement) :
  loose a -> loose b ->
  feval (FeMul a b) mod p25519 = (feval a * feval b) mod p25519.
Proof.
  intros Ha Hb. destruct (FeMul_spec a b Ha Hb) as [_ [k Hk]].
  apply mod_p_shift with (k := k). exact Hk.
Qed.

Lemma p25519_nonzero : p25519 <> 0.
Proof. unfold p25519. lia. Qed.

(** X8.  On loose inputs [FeMul] is associative modulo [2^255 - 19]:
    the outputs of the inner products are valid inputs of the outer
    ones. *)
Theorem FeMul_assoc (a b c : FieldElement) :
  loose a -> loose b -> loose c ->
  feval (FeMul a (FeMul b c)) mod p25519 =
  feval (FeMul (FeMul a b) c) mod p25519.
Proof.
  intros Ha Hb Hc.
  rewrite (FeMul_value a (FeMul b c) Ha (FeMul_loose b c Hb Hc)).
  rewrite (FeMul_value (FeMul a b) c (FeMul_loose a b Ha Hb) Hc).
  rewrite <- Z.mul_mod_idemp_r, (FeMul_value b c Hb Hc), Z.mul_mod_idemp_r
    by exact p25519_nonzero.
  rewrite <- (Z.mul_mod_idemp_l (feval (FeMul a b))),
    (FeMul_value a b Ha Hb), Z.mul_mod_idemp_l by exact p25519_nonzero.
  f_equal. ring.
Qed.

Lemma FeMul_assoc_witness :
  loose ex_a /\ loose ex_b /\ loose ex_tight /\
  feval (FeMul ex_a (FeMul ex_b ex_tight)) mod p25519 =
  feval (FeMul (FeMul ex_a ex_b) ex_tight) mod p25519.
Proof.
  assert (Hl : loose ex_tight).
  { unfold loose, fe_below, ex_tight. cbn [l0 l1 l2 l3 l4]. lia. }
  split; [exact ex_a_loose |].
  split; [exact ex_b_loose |].
  split; [exact Hl |].
  apply (FeMul_assoc ex_a ex_b ex_tight ex_a_loose ex_b_loose Hl).
Defined.

(** X9.  [FeMul] distributes over [FeAdd] modulo [2^255 - 19], for
    loose [a] and for [b], [c] with limbs below [2^53] (so that their
    unreduced sum is still a valid factor). *)
Theorem FeMul_FeAdd_distr (a b c : FieldElement) :
  loose a -> fe_below 53 b -> fe_below 53 c ->
  feval (FeMul a (FeAdd b c)) mod p25519 =
  feval (FeAdd (FeMul a b) (FeMul a c)) mod p25519.
Proof.
  intros Ha Hb Hc.
  assert (Hb' : loose b) by (revert Hb; unfold loose, fe_below; lia).
  assert (Hc' : loose c) by (revert Hc; unfold loose, fe_below; lia).
  destruct (FeAdd_no_wrap 53 b c ltac:(lia) Hb Hc) as [Es Hs].
  change (53 + 1) with 54 in Hs.
  destruct (FeAdd_no_wrap 54 (FeMul a b) (FeMul a c) ltac:(lia)
              (FeMul_loose a b Ha Hb') (FeMul_loose a c Ha Hc')) as [Ep _].
  rewrite (FeMul_value a (FeAdd b c) Ha Hs), Es, Ep.
  rewrite Z.mul_add_distr_l.
  rewrite Z.add_mod by exact p25519_nonzero.
  rewrite <- (FeMul_value a b Ha Hb'), <- (FeMul_value a c Ha Hc').
  rewrite <- Z.add_mod by exact p25519_nonzero. reflexivity.
Qed.

Lemma FeMul_FeAdd_distr_witness :
  loose ex_a /\ fe_below 53 ex_tight /\
  feval (FeMul ex_a (FeAdd ex_tight ex_tight)) mod p25519 =
  feval (FeAdd (FeMul ex_a ex_tight) (FeMul ex_a ex_tight)) mod p25519.
Proof.
  assert (H53 : fe_below 53 ex_tight).
  { unfold fe_below, ex_tight. cbn [l0 l1 l2 l3 l4]. lia. }
  split; [exact ex_a_loose |].
  split; [exact H53 |].
  apply (FeMul_FeAdd_distr ex_a ex_tight ex_tight ex_a_loose H53 H53).
Defined.

(** X10.  For loose [a] the value of [FeSquare a] is congruent to
    [(value a)^2] modulo [2^255 - 19]. *)
Theorem FeSquare_correct (a : FieldElement) :
  loose a ->
  feval (FeSquare a) mod p25519 = (feval a * feval a) mod p25519.
Proof.
  intros Ha. rewrite (FeSquare_FeMul a Ha). apply FeMul_value; exact Ha.
Qed.

Lemma FeSquare_correct_witness :
  loose ex_a /\
  feval (FeSquare ex_a) mod p25519 = (feval ex_a * feval ex_a) mod p25519.
Proof.
  split; [exact ex_a_loose |].
  apply (FeSquare_correct ex_a ex_a_loose).
Defined.

(** X11.  For loose [a] the value of [FeSquare2 a] is congruent to
    [2 * (value a)^2] modulo [2^255 - 19], its limbs are below [2^53],
    and its limbs are those of [FeAdd (FeSquare a) (FeSquare a)]. *)
Theorem FeSquare2_correct (a : FieldElement) :
  loose a ->
  feval (FeSquare2 a) mod p25519 = (2 * (feval a * feval a)) mod p25519 /\
  fe_below 53 (FeSquare2 a) /\
  FeSquare2 a = FeAdd (FeSquare a) (FeSquare a).
Proof.
  intros Ha.
  assert (Ht : fe_below 52 (FeSquare a)).
  { rewrite (FeSquare_FeMul a Ha).
    destruct (FeMul_spec a a Ha Ha) as [Ht _]. apply tight_below_52, Ht. }
  destruct (FeAdd_no_wrap 52 (FeSquare a) (FeSquare a) ltac:(lia) Ht Ht)
    as [Es Hs].
  unfold FeSquare2. cbv zeta.
  split; [| split; [exact Hs | reflexivity]].
  rewrite Es.
  rewrite Z.add_mod, (FeSquare_FeMul a Ha), (FeMul_value a a Ha Ha),
    <- Z.add_mod by exact p25519_nonzero.
  f_equal. ring.
Qed.

Lemma FeSquare2_correct_witness :
  loose ex_a /\
  feval (FeSquare2 ex_a) mod p25519 =
  (2 * (feval ex_a * feval ex_a)) mod p25519 /\
  fe_below 53 (FeSquare2 ex_a) /\
  FeSquare2 ex_a = FeAdd (FeSquare ex_a) (FeSquare ex_a).
Proof.
  split; [exact ex_a_loose |].
  apply (FeSquare2_correct ex_a ex_a_loose).
Defined.

(** ** [feReduce] and the codec *)

(** X12.  For every [v] with 64-bit limbs whose limbs 1 to 4 leave room
    for the carries, [feReduce v] has every limb below [2^51] and its
    value is [value v mod (2^255 - 19)]. *)
Theorem feReduce_canonical (v : FieldElement) :
  fe_ok v -> carry_room v ->
  fe_below 51 (feReduce v) /\ feval (feReduce v) = feval v mod p25519.
Proof.
  intros Hok Hroom.
  destruct (feReduce_spec v Hok Hroom) as [[Hl _] Hv].
  split; [exact Hl | exact Hv].
Qed.

Lemma feReduce_canonical_witness :
  fe_ok ex_wide /\ carry_room ex_wide /\
  fe_below 51 (feReduce ex_wide) /\
  feval (feReduce ex_wide) = feval ex_wide mod p25519.
Proof.
  destruct ex_wide_ok as [Hok Hroom].
  split; [exact Hok |].
  split; [exact Hroom |].
  apply (feReduce_canonical ex_wide Hok Hroom).
Defined.

Lemma below_51_ok (t : FieldElement) :
  fe_below 51 t -> fe_ok t /\ carry_room t.
Proof. intros H. apply loose_fe_ok, below_51_loose, H. Qed.

(** Nothing is carried and nothing subtracted from a reduced element. *)
Lemma feReduce_fix (t : FieldElement) :
  reduced t -> feReduce t = t.
Proof.
  intros [Hl Hv].
  destruct (below_51_ok t Hl) as [Hok Hroom].
  destruct (feReduce_spec t Hok Hroom) as [[Hl' _] Hval].
  apply limbs_unique; [exact Hl' | exact Hl |].
  rewrite Hval. apply Z.mod_small. split; [| exact Hv].
  destruct t as [t0 t1 t2 t3 t4].
  unfold fe_below, feval in *. cbn [l0 l1 l2 l3 l4] in *. lia.
Qed.

(** X13.  A field element in reduced form (limbs below [2^51], value
    below the modulus) is a fixed point of [feReduce]. *)
Theorem feReduce_fixed (t : FieldElement) :
  reduced t -> feReduce t = t.
Proof. exact (feReduce_fix t). Qed.

Lemma feReduce_fixed_witness :
  reduced (FE 5 (2 ^ 51 - 1) 0 7 (2 ^ 51 - 2)) /\
  feReduce (FE 5 (2 ^ 51 - 1) 0 7 (2 ^ 51 - 2)) =
  FE 5 (2 ^ 51 - 1) 0 7 (2 ^ 51 - 2).
Proof.
  assert (H : reduced (FE 5 (2 ^ 51 - 1) 0 7 (2 ^ 51 - 2))).
  { unfold reduced, fe_below, feval, p25519. cbn [l0 l1 l2 l3 l4]. lia. }
  split; [exact H |].
  apply (feReduce_fixed _ H).
Defined.

(** X14.  [feReduce] is idempotent on every [v] with 64-bit limbs whose
    limbs 1 to 4 leave room for the carries. *)
Theorem feReduce_idempotent (v : FieldElement) :
  fe_ok v -> carry_room v -> feReduce (feReduce v) = feReduce v.
Proof.
  intros Hok Hroom.
  destruct (feReduce_spec v Hok Hroom) as [Hred _].
  apply feReduce_fix, Hred.
Qed.

Lemma feReduce_idempotent_witness :
  fe_ok ex_wide /\ carry_room ex_wide /\
  feReduce (feReduce ex_wide) = feReduce ex_wide.
Proof.
  destruct ex_wide_ok as [Hok Hroom].
  split; [exact Hok |].
  split; [exact Hroom |].
  apply (feReduce_idempotent ex_wide Hok Hroom).
Defined.

Lemma FeToBytes_encode (v : FieldElement) :
  loose v -> FeToBytes v = le_encode 32 (feval v mod p25519).
Proof.
  intros Hv.
  destruct (loose_fe_ok v Hv) as [Hok Hroom].
  destruct (feReduce_spec v Hok Hroom) as [[Hlimbs _] Hval].
  destruct (pack_spec (feReduce v) Hlimbs) as [Hbytes Hdec].
  unfold FeToBytes. cbv zeta.
  rewrite <- Hval, <- Hdec.
  symmetry. apply (le_encode_decode (pack (feReduce v)) Hbytes).
Qed.

(** X15.  Two loose field elements have the same encoding exactly when
    their values are congruent modulo [2^255 - 19]. *)
Theorem FeToBytes_eq_iff (u v : FieldElement) :
  loose u -> loose v ->
  (FeToBytes u = FeToBytes v <->
   feval u mod p25519 = feval v mod p25519).
Proof.
  intros Hu Hv.
  rewrite (FeToBytes_encode u Hu), (FeToBytes_encode v Hv).
  split.
  - apply le_encode_inj; apply p25519_range.
  - intros ->. reflexivity.
Qed.

Lemma FeToBytes_eq_iff_witness :
  loose (FeMul ex_a ex_b) /\ loose (FeMul ex_b ex_a) /\
  (FeToBytes (FeMul ex_a ex_b) = FeToBytes (FeMul ex_b ex_a) <->
   feval (FeMul ex_a ex_b) mod p25519 = feval (FeMul ex_b ex_a) mod p25519).
Proof.
  assert (H1 : loose (FeMul ex_a ex_b))
    by (apply FeMul_loose; [exact ex_a_loose | exact ex_b_loose]).
  assert (H2 : loose (FeMul ex_b ex_a))
    by (apply FeMul_loose; [exact ex_b_loose | exact ex_a_loose]).
  split; [exact H1 |].
  split; [exact H2 |].
  apply (FeToBytes_eq_iff _ _ H1 H2).
Defined.

(** X16.  Decoding the encoding of a loose field element returns the
    limbs of its canonical representative, [feReduce v]. *)
Theorem FeFromBytes_FeToBytes (v : FieldElement) :
  loose v -> FeFromBytes (FeToBytes v) = feReduce v.
Proof.
  intros Hv.
  destruct (loose_fe_ok v Hv) as [Hok Hroom].
  destruct (feReduce_spec v Hok Hroom) as [[Hlimbs Hlt] Hval].
  destruct (pack_spec (feReduce v) Hlimbs) as [Hbytes Hdec].
  assert (Hbuf : buffer32 (FeToBytes v)) by (split; [reflexivity | exact Hbytes]).
  destruct (FeFromBytes_spec (FeToBytes v) Hbuf) as [Hl' Hv'].
  apply limbs_unique; [exact Hl' | exact Hlimbs |].
  rewrite Hv'. unfold FeToBytes. cbv zeta. rewrite Hdec.
  apply Z.mod_small.
  pose proof (Z.mod_pos_bound (feval v) p25519 ltac:(reflexivity)) as Hp.
  rewrite <- Hval in Hp. unfold p25519 in *. lia.
Qed.

Lemma FeFromBytes_FeToBytes_witness :
  loose ex_a /\ FeFromBytes (FeToBytes ex_a) = feReduce ex_a.
Proof.
  split; [exact ex_a_loose |].
  apply (FeFromBytes_FeToBytes ex_a ex_a_loose).
Defined.

(** Decoding followed by encoding, on any buffer. *)
Lemma roundtrip_buffer (x : list Z) :
  buffer32 x ->
  FeToBytes (FeFromBytes x) =
  le_encode 32 ((le_decode x mod 2 ^ 255) mod p25519).
Proof.
  intros Hx.
  destruct (FeFromBytes_spec x Hx) as [Hl Hv].
  rewrite (FeToBytes_encode _ (below_51_loose _ Hl)), Hv. reflexivity.
Qed.

(** X17.  For every 32-byte buffer, decoding and re-encoding gives the
    encoding of the buffer's low 255 bits reduced modulo [2^255 - 19]. *)
Theorem roundtrip_any (x : list Z) :
  buffer32 x ->
  FeToBytes (FeFromBytes x) =
  le_encode 32 ((le_decode x mod 2 ^ 255) mod p25519).
Proof. exact (roundtrip_buffer x). Qed.

Lemma roundtrip_any_witness :
  buffer32 ex_buf /\
  FeToBytes (FeFromBytes ex_buf) =
  le_encode 32 ((le_decode ex_buf mod 2 ^ 255) mod p25519).
Proof.
  split; [exact ex_buf_buffer |].
  apply (roundtrip_any ex_buf ex_buf_buffer).
Defined.

(** X18.  A non-canonical encoding is accepted and normalised: for
    [2^255 - 19 <= n < 2^255], decoding the encoding of [n] and
    re-encoding gives the encoding of [n - (2^255 - 19)]. *)
Theorem roundtrip_noncanonical (n : Z) :
  p25519 <= n < 2 ^ 255 ->
  FeToBytes (FeFromBytes (le_encode 32 n)) = le_encode 32 (n - p25519).
Proof.
  intros Hn.
  assert (Hbuf : buffer32 (le_encode 32 n))
    by (split; [apply le_encode_length | apply le_encode_bytes]).
  rewrite (roundtrip_buffer _ Hbuf), le_decode_encode.
  change (2 ^ (8 * Z.of_nat 32)) with (2 ^ 256).
  unfold p25519 in *.
  rewrite (Z.mod_small n (2 ^ 256)) by lia.
  rewrite (Z.mod_small n (2 ^ 255)) by lia.
  f_equal. symmetry. apply Z.mod_unique with (q := 1); lia.
Qed.

Lemma roundtrip_noncanonical_witness :
  p25519 <= p25519 + 5 < 2 ^ 255 /\
  FeToBytes (FeFromBytes (le_encode 32 (p25519 + 5))) =
  le_encode 32 (p25519 + 5 - p25519).
Proof.
  assert (Hn : p25519 <= p25519 + 5 < 2 ^ 255) by (unfold p25519; lia).
  split; [exact Hn |].
  apply (roundtrip_noncanonical (p25519 + 5) Hn).
Defined.

(** X19.  For every 32-byte buffer the limbs of [FeFromBytes x] are
    below [2^51]; two buffers decode to the same limbs exactly when they
    agree on their low 255 bits. *)
Theorem FeFromBytes_limbs (x y : list Z) :
  buffer32 x -> buffer32 y ->
  fe_below 51 (FeFromBytes x) /\
  (FeFromBytes x = FeFromBytes y <->
   le_decode x mod 2 ^ 255 = le_decode y mod 2 ^ 255).
Proof.
  intros Hx Hy.
  destruct (FeFromBytes_spec x Hx) as [Hlx Hvx].
  destruct (FeFromBytes_spec y Hy) as [Hly Hvy].
  split; [exact Hlx |].
  rewrite <- Hvx, <- Hvy. split.
  - intros ->. reflexivity.
  - apply limbs_unique; assumption.
Qed.

Lemma FeFromBytes_limbs_witness :
  buffer32 ex_buf /\ buffer32 (le_encode 32 (p25519 + 1)) /\
  fe_below 51 (FeFromBytes ex_buf) /\
  (FeFromBytes ex_buf = FeFromBytes (le_encode 32 (p25519 + 1)) <->
   le_decode ex_buf mod 2 ^ 255 =
   le_decode (le_encode 32 (p25519 + 1)) mod 2 ^ 255).
Proof.
  assert (Hy : buffer32 (le_encode 32 (p25519 + 1)))
    by (split; [apply le_encode_length | apply le_encode_bytes]).
  split; [exact ex_buf_buffer |].
  split; [exact Hy |].
  apply (FeFromBytes_limbs ex_buf _ ex_buf_buffer Hy).
Defined.

Lemma feReduce_below_51 (v : FieldElement) : fe_below 51 (feReduce v).
Proof.
  unfold feReduce, fe_below. cbv zeta. cbn [l0 l1 l2 l3 l4].
  rewrite !and_mask51.
  repeat apply conj; apply Z.mod_pos_bound; reflexivity.
Qed.

Lemma pack_top (t : FieldElement) :
  fe_below 51 t -> 0 <= at_ (pack t) 31 < 2 ^ 7.
Proof.
  destruct t as [t0 t1 t2 t3 t4]. unfold fe_below. cbn [l0 l1 l2 l3 l4].
  intros (_ & _ & _ & _ & H4).
  unfold pack, at_. cbv zeta. cbn [nth l4].
  pose proof (top_range t4 44 7 H4 ltac:(lia) ltac:(lia) eq_refl) as T4.
  unfold byte. rewrite shr_div by lia.
  rewrite Z.mod_small by lia. exact T4.
Qed.

(** X20.  Whatever the limbs of [v], [FeToBytes v] is a buffer of 32
    bytes whose bit 255 (the top bit of byte 31) is clear. *)
Theorem FeToBytes_shape (v : FieldElement) :
  buffer32 (FeToBytes v) /\ 0 <= at_ (FeToBytes v) 31 < 2 ^ 7.
Proof.
  pose proof (feReduce_below_51 v) as Hl.
  destruct (pack_spec (feReduce v) Hl) as [Hb _].
  split; [split; [reflexivity | exact Hb] |].
  apply pack_top, Hl.
Qed.

(** ** [FeCMove] with an arbitrary flag *)

Lemma negate_mask (b : Z) :
  U64.mul (2 ^ 64 - 1) (uint64_of_int32 b) = (- b) mod 2 ^ 64.
Proof.
  unfold U64.mul, uint64_of_int32, U64.wrap, U64.wB.
  rewrite Z.mul_mod_idemp_r by lia.
  replace ((2 ^ 64 - 1) * b) with (- b + b * 2 ^ 64) by ring.
  apply Z.mod_add. lia.
Qed.

Lemma select_bit (f g m i : Z) :
  Z.testbit (U64.xor f (U64.and m (U64.xor f g))) i =
  if Z.testbit m i then Z.testbit g i else Z.testbit f i.
Proof.
  unfold U64.xor, U64.and.
  rewrite Z.lxor_spec, Z.land_spec, Z.lxor_spec.
  destruct (Z.testbit m i), (Z.testbit f i), (Z.testbit g i); reflexivity.
Qed.

Lemma negate_all_or_nothing (b : Z) :
  - 2 ^ 31 <= b < 2 ^ 31 ->
  ((- b) mod 2 ^ 64 = 0 <-> b = 0) /\
  ((- b) mod 2 ^ 64 = 2 ^ 64 - 1 <-> b = 1).
Proof.
  intros Hb.
  destruct (Z.eq_dec b 0) as [-> | Hz].
  - cbn. split; split; intros; lia.
  - destruct (Z.lt_ge_cases b 0) as [Hneg | Hpos].
    + rewrite (Z.mod_small (- b)) by lia. lia.
    + replace ((- b) mod 2 ^ 64) with (2 ^ 64 - b)
        by (apply Z.mod_unique with (q := -1); lia).
      lia.
Qed.

(** X21.  For every flag [b], [FeCMove f g b] selects bit by bit with
    the mask [(- b) mod 2^64]: a bit of the output is the bit of [g]
    where the mask has a 1 and the bit of [f] elsewhere.  Among the
    [int32] flags the mask is all zeros only for [b = 0] and all ones
    only for [b = 1]. *)
Theorem FeCMove_bitwise (f g : FieldElement) (b : Z) :
  - 2 ^ 31 <= b < 2 ^ 31 ->
  (forall (k : nat) (i : Z),
     Z.testbit (limb (FeCMove f g b) k) i =
     if Z.testbit ((- b) mod 2 ^ 64) i
     then Z.testbit (limb g k) i
     else Z.testbit (limb f k) i) /\
  ((- b) mod 2 ^ 64 = 0 <-> b = 0) /\
  ((- b) mod 2 ^ 64 = 2 ^ 64 - 1 <-> b = 1).
Proof.
  intros Hb. split; [| apply negate_all_or_nothing, Hb].
  intros k i. unfold FeCMove. cbv zeta. rewrite negate_mask.
  destruct k as [| [| [| [| k]]]]; cbn [limb l0 l1 l2 l3 l4];
    apply select_bit.
Qed.

Lemma FeCMove_bitwise_witness :
  - 2 ^ 31 <= 2 < 2 ^ 31 /\
  (forall (k : nat) (i : Z),
     Z.testbit (limb (FeCMove ex_a ex_b 2) k) i =
     if Z.testbit ((- 2) mod 2 ^ 64) i
     then Z.testbit (limb ex_b k) i
     else Z.testbit (limb ex_a k) i) /\
  ((- 2) mod 2 ^ 64 = 0 <-> 2 = 0) /\
  ((- 2) mod 2 ^ 64 = 2 ^ 64 - 1 <-> 2 = 1).
Proof.
  assert (Hb : - 2 ^ 31 <= 2 < 2 ^ 31) by lia.
  split; [exact Hb |].
  apply (FeCMove_bitwise ex_a ex_b 2 Hb).
Defined.

(** ** The procedures on the memory *)

Lemma brk_feReduce_m (t v : loc) : keeps brk (feReduce_m t v).
Proof.
  unfold feReduce_m.
  apply keeps_seq; [intros m; reflexivity |].
  repeat (apply keeps_seq; [intros m; reflexivity |]).
  intros m; reflexivity.
Qed.

Lemma brk_pack_m (r t : loc) : keeps brk (pack_m r t).
Proof.
  unfold pack_m.
  repeat (apply keeps_seq; [intros m; reflexivity |]).
  intros m; reflexivity.
Qed.

Lemma other_buf_set_byte (r' r : loc) (i : nat) (e : mem -> Z) :
  r' <> r -> keeps (fun m => bufs m r') (set_byte r i e).
Proof.
  intros Hne m. unfold set_byte, stb. cbn [bufs]. apply fupd_other, Hne.
Qed.

Lemma other_buf_pack_m (r' r t : loc) :
  r' <> r -> keeps (fun m => bufs m r') (pack_m r t).
Proof.
  intros Hne. unfold pack_m.
  repeat (apply keeps_seq; [apply other_buf_set_byte, Hne |]).
  apply other_buf_set_byte, Hne.
Qed.

(** X22.  [feReduce] may be called in place: whether or not [t] and [v]
    are the same object, on return [t] holds the reduction of the
    content [v] had at the call; every other field element, every byte
    buffer and the allocation mark are as before. *)
Theorem feReduce_m_effect (t v : loc) (m : mem) :
  fes (feReduce_m t v m) t = feReduce (fes m v) /\
  (forall q : loc, q <> t -> fes (feReduce_m t v m) q = fes m q) /\
  bufs (feReduce_m t v m) = bufs m /\
  brk (feReduce_m t v m) = brk m.
Proof.
  split; [apply feReduce_m_run |].
  split; [intros q Hq; apply (frame_feReduce_m q t v Hq) |].
  split; [apply bufs_feReduce_m | apply brk_feReduce_m].
Qed.

Lemma feReduce_m_effect_witness :
  1%nat <> 0%nat /\
  fes (feReduce_m 0%nat 0%nat ex_mem) 0%nat = feReduce (fes ex_mem 0%nat) /\
  fes (feReduce_m 0%nat 0%nat ex_mem) 1%nat = fes ex_mem 1%nat.
Proof.
  assert (Hne : 1%nat <> 0%nat) by discriminate.
  destruct (feReduce_m_effect 0%nat 0%nat ex_mem) as (Ht & Hq & _).
  split; [exact Hne |].
  split; [exact Ht | exact (Hq 1%nat Hne)].
Defined.

(** X23.  Called on an object [v] in use and a 32-byte buffer [r],
    [FeToBytes] leaves in [r] the bytes of the pure [FeToBytes] of the
    content of [v]; every other buffer, every field element in use and
    the allocation mark are as before. *)
Theorem FeToBytes_m_effect (r v : loc) (m : mem) :
  (v < brk m)%nat -> length (bufs m r) = 32%nat ->
  bufs (FeToBytes_m r v m) r = FeToBytes (fes m v) /\
  (forall r' : loc, r' <> r -> bufs (FeToBytes_m r v m) r' = bufs m r') /\
  (forall q : loc, (q < brk m)%nat -> fes (FeToBytes_m r v m) q = fes m q) /\
  brk (FeToBytes_m r v m) = brk m.
Proof.
  intros Hv Hlen.
  split; [apply FeToBytes_m_run; assumption |].
  split; [| split; [intros q Hq; apply FeToBytes_m_frame, Hq |]].
  - intros r' Hne. rewrite FeToBytes_m_unfold, bufs_leave_fe.
    rewrite (other_buf_pack_m r' r (brk m) Hne).
    rewrite (bufs_feReduce_m (brk m) v (enter_fe m)). reflexivity.
  - rewrite FeToBytes_m_unfold.
    unfold leave_fe. cbn [brk].
    rewrite (brk_pack_m r (brk m)), (brk_feReduce_m (brk m) v).
    reflexivity.
Qed.

Lemma FeToBytes_m_effect_witness :
  (1 < brk ex_mem)%nat /\ length (bufs ex_mem 0%nat) = 32%nat /\
  bufs (FeToBytes_m 0%nat 1%nat ex_mem) 0%nat = FeToBytes (fes ex_mem 1%nat) /\
  (forall r' : loc, r' <> 0%nat ->
     bufs (FeToBytes_m 0%nat 1%nat ex_mem) r' = bufs ex_mem r') /\
  (forall q : loc, (q < brk ex_mem)%nat ->
     fes (FeToBytes_m 0%nat 1%nat ex_mem) q = fes ex_mem q) /\
  brk (FeToBytes_m 0%nat 1%nat ex_mem) = brk ex_mem.
Proof.
  assert (Hv : (1 < brk ex_mem)%nat) by (cbn; lia).
  assert (Hl : length (bufs ex_mem 0%nat) = 32%nat) by reflexivity.
  split; [exact Hv |].
  split; [exact Hl |].
  apply (FeToBytes_m_effect 0%nat 1%nat ex_mem Hv Hl).
Defined.
